(** * redstreak: Catalog, ConfigManager and PubSubHandler

    A shallow embedding of the three stateful classes of the repository
    (InMemoryCatalog, InMemoryConfigManager and the abstract PubSubHandler)
    and the properties their specification states about them. *)

From Stdlib Require Import QArith Qcanon ZArith Lia.
From stdpp Require Import base tactics option numbers countable strings list gmap.

Local Open Scope Z_scope.

(** ** JavaScript values *)

(** A JavaScript [number].  Finite numbers are represented by their exact
    rational value; [+0] and [-0], which no operator used by the sources
    tells apart ([<], [==], [===], [-], [isNaN], truthiness, [Map] keys),
    are one value. *)
Inductive number : Type :=
  | NaN
  | NegInfinity
  | Finite (q : Qc)
  | Infinity.

Global Instance number_eq_dec : EqDecision number.
Proof. solve_decision. Defined.

Global Instance number_countable : Countable number.
Proof.
  refine (inj_countable'
    (λ n, match n with
          | NaN => inl 0%nat | NegInfinity => inl 1%nat | Infinity => inl 2%nat
          | Finite q => inr q
          end)
    (λ s, match s with
          | inl 0%nat => NaN | inl 1%nat => NegInfinity | inl _ => Infinity
          | inr q => Finite q
          end) _).
  by intros [].
Defined.

Definition num (z : Z) : number := Finite (Q2Qc (inject_Z z)).

(** [isNaN(x)] on a number. *)
Definition isNaN (x : number) : bool :=
  match x with NaN => true | _ => false end.

(** [x < y] on numbers: false as soon as one side is [NaN]. *)
Definition num_lt (x y : number) : bool :=
  match x, y with
  | NaN, _ | _, NaN => false
  | NegInfinity, NegInfinity => false
  | NegInfinity, _ => true
  | Finite _, NegInfinity => false
  | Finite p, Finite q => bool_decide (p < q)%Qc
  | Finite _, Infinity => true
  | Infinity, _ => false
  end.

(** [x == y] and [x === y] on two numbers: [NaN] equals nothing. *)
Definition num_eq (x y : number) : bool :=
  negb (isNaN x) && bool_decide (x = y).

(** [x <= y] *)
Definition num_le (x y : number) : bool := num_lt x y || num_eq x y.

(** [x - y].  The difference of two finite numbers is taken exactly: the
    rounding of the machine operation never changes its sign, which is
    all that its callers read. *)
Definition num_sub (x y : number) : number :=
  match x, y with
  | NaN, _ | _, NaN => NaN
  | Finite p, Finite q => Finite (p - q)%Qc
  | Infinity, Infinity | NegInfinity, NegInfinity => NaN
  | Infinity, _ | _, NegInfinity => Infinity
  | NegInfinity, _ | _, Infinity => NegInfinity
  end.

(** [Number.isInteger(x)]. *)
Definition isInteger (x : number) : bool :=
  match x with
  | Finite q => bool_decide (Qden (this q) = 1%positive)
  | _ => false
  end.

(** A run-time value of type [unknown].  Objects are opaque; bigints and
    symbols are left out (their [typeof] is not ["number"] either). *)
Inductive value : Type :=
  | VUndefined
  | VNull
  | VBoolean (b : bool)
  | VNumber (n : number)
  | VString (s : string)
  | VObject.

Inductive type_tag : Type :=
  | TUndefined | TObject | TBoolean | TNumber | TString.

Global Instance type_tag_eq_dec : EqDecision type_tag.
Proof. solve_decision. Defined.

Definition typeof (v : value) : type_tag :=
  match v with
  | VUndefined => TUndefined
  | VNull | VObject => TObject
  | VBoolean _ => TBoolean
  | VNumber _ => TNumber
  | VString _ => TString
  end.

(** [typeof v == 'number'], with the number it narrows [v] to. *)
Definition as_number (v : value) : option number :=
  match v with
  | VNumber n => Some n
  | _ => None
  end.

(** Truthiness, as tested by [if (v)]. *)
Definition ToBoolean (v : value) : bool :=
  match v with
  | VUndefined | VNull => false
  | VBoolean b => b
  | VNumber n => negb (isNaN n) && negb (bool_decide (n = num 0))
  | VString s => negb (bool_decide (s = ""%string))
  | VObject => true
  end.

(** ** A state and exception monad

    Every method of the three classes reads and writes the fields of its
    object and may throw; [SE S E A] is such a computation over the object
    state [S], throwing errors of type [E]. *)
Definition SE (S E A : Type) : Type := S → (E + A) * S.

Section monad.
Context {S E : Type}.

Definition se_ret {A} (a : A) : SE S E A := λ s, (inr a, s).
Definition se_bind {A B} (f : A → SE S E B) (m : SE S E A) : SE S E B :=
  λ s, match m s with
       | (inl e, s') => (inl e, s')
       | (inr a, s') => f a s'
       end.
Definition throw {A} (e : E) : SE S E A := λ s, (inl e, s).
Definition get_state : SE S E S := λ s, (inr s, s).
Definition modify (f : S → S) : SE S E unit := λ s, (inr tt, f s).

(** The object after the call, whether it returned or threw. *)
Definition after {A} (m : SE S E A) (s : S) : S := (m s).2.
Definition outcome {A} (m : SE S E A) (s : S) : E + A := (m s).1.
End monad.

Global Instance se_mret {S E} : MRet (SE S E) := @se_ret S E.
Global Instance se_mbind {S E} : MBind (SE S E) := @se_bind S E.


(** ** PubSubHandler (src/classes/pub_sub_handler/PubSubHandler.ts) *)
Module PubSub.

Inductive PubSubStates : Type :=
  | UNSUBSCRIBED
  | DISCONNECTED
  | CONNECTED
  | SUBSCRIBED.

Inductive PubSubModes : Type :=
  | SUB
  | PUB
  | DUAL.

Global Instance PubSubStates_eq_dec : EqDecision PubSubStates.
Proof. solve_decision. Defined.

(** The numeric value of each enum member. *)
Definition state_code (s : PubSubStates) : Z :=
  match s with
  | UNSUBSCRIBED => -1
  | DISCONNECTED => 0
  | CONNECTED => 1
  | SUBSCRIBED => 2
  end.

Definition mode_code (m : PubSubModes) : Z :=
  match m with
  | SUB => 0
  | PUB => 1
  | DUAL => 2
  end.

(** [mode in PubSubStates] for a number [mode].  The object compiled from
    a numeric enum has one key per member name and one per member value
    (its reverse mapping); the key of a number is its decimal string, so
    the test holds exactly for the numbers that are a member's value. *)
Definition in_PubSubStates (mode : number) : bool :=
  bool_decide (mode ∈ (num ∘ state_code) <$>
                 [UNSUBSCRIBED; DISCONNECTED; CONNECTED; SUBSCRIBED]).

(** [PubSubHandlerError] carries its message; a rejected hook carries
    whatever the subclass rejected with. *)
Inductive error : Type :=
  | PubSubHandlerError (message : string)
  | HookRejected (reason : string).

(** The fields of a handler that its methods read or write.  [client] and
    the event emitter take no part in any guard or transition.  [mode] is
    stored as it was passed. *)
Record handler : Type := Handler {
  state : PubSubStates;
  mode : value
}.

Definition M := SE handler error.

Definition _validateMode (mode : value) : bool :=
  match as_number mode with
  | Some n => in_PubSubStates n
  | None => false
  end.

(** [new C(client, mode)]; [is_base] tells whether [C] is [PubSubHandler]
    itself ([this.constructor === PubSubHandler]). *)
Definition constructor (is_base : bool) (mode : value) : error + handler :=
  if is_base then inl (PubSubHandlerError "PubSubHandler is an abstract class")
  else if negb (_validateMode mode) then inl (PubSubHandlerError "Invalid Mode")
  else inr {| state := DISCONNECTED; mode := mode |}.

(** [v === m] for a member [m] of [PubSubModes]: strict equality with a
    number holds for that number only. *)
Definition is_mode (v : value) (m : PubSubModes) : bool :=
  match v with
  | VNumber n => num_eq n (num (mode_code m))
  | _ => false
  end.

Definition isSubscribed (h : handler) : bool :=
  bool_decide (state h = SUBSCRIBED).
Definition isConnected (h : handler) : bool :=
  state_code CONNECTED <=? state_code (state h).
Definition canSubscribe (h : handler) : bool :=
  is_mode (mode h) SUB || is_mode (mode h) DUAL.
Definition canPublish (h : handler) : bool :=
  is_mode (mode h) PUB || is_mode (mode h) DUAL.

Definition connectionCheck : M unit :=
  h ← get_state;
  if negb (isConnected h) then throw (PubSubHandlerError "Not Connected")
  else mret tt.
Definition subModeCheck : M unit :=
  h ← get_state;
  if negb (canSubscribe h) then throw (PubSubHandlerError "Can Not Subscribe")
  else mret tt.
Definition pubModeCheck : M unit :=
  h ← get_state;
  if negb (canPublish h) then throw (PubSubHandlerError "Can Not Publish")
  else mret tt.

(** The result of awaiting one of the five abstract hooks ([_connect],
    [_disconnect], [_subscribe], [_unsubscribe], [_publish]): the promise
    is fulfilled, or it is rejected and [await] rethrows the reason.  A
    hook has no access to the private [#state], and is taken not to call
    the handler's own methods (the handler is for non-reentrant use). *)
Inductive hook : Type :=
  | Fulfilled
  | Rejected (reason : string).

Definition await (k : hook) : M unit :=
  match k with
  | Fulfilled => mret tt
  | Rejected reason => throw (HookRejected reason)
  end.

Definition set_state (s : PubSubStates) : M unit :=
  modify (λ h, {| state := s; mode := mode h |}).

Definition connect (_connect : hook) : M unit :=
  h ← get_state;
  if isConnected h then mret tt
  else await _connect;; set_state CONNECTED.

Definition disconnect (_disconnect : hook) : M unit :=
  h ← get_state;
  if negb (isConnected h) then mret tt
  else await _disconnect;; set_state DISCONNECTED.

Definition subscribe (_subscribe : hook) : M unit :=
  connectionCheck;;
  subModeCheck;;
  await _subscribe;;
  set_state SUBSCRIBED.

Definition unsubscribe (_unsubscribe : hook) : M unit :=
  connectionCheck;;
  subModeCheck;;
  await _unsubscribe;;
  set_state DISCONNECTED.

Definition publish (_publish : hook) : M unit :=
  connectionCheck;;
  pubModeCheck;;
  await _publish.

(** One call on a handler, with the outcome of the hook it would await. *)
Inductive call : Type :=
  | Connect (k : hook)
  | Disconnect (k : hook)
  | Subscribe (k : hook)
  | Unsubscribe (k : hook)
  | Publish (k : hook).

Definition perform (c : call) : M unit :=
  match c with
  | Connect k => connect k
  | Disconnect k => disconnect k
  | Subscribe k => subscribe k
  | Unsubscribe k => unsubscribe k
  | Publish k => publish k
  end.

(** A sequence of calls, each run to completion; a call that throws
    leaves the handler as it is and the caller goes on. *)
Definition run (cs : list call) (h : handler) : handler :=
  foldl (λ h c, after (perform c) h) h cs.

End PubSub.

(** ** InMemoryConfigManager *)
Module ConfigManager.

Inductive CONFIG_STATUS : Type :=
  | INACTIVE
  | ACTIVE.

Definition status_code (s : CONFIG_STATUS) : number :=
  match s with
  | INACTIVE => num 0
  | ACTIVE => num 1
  end.

(** An object with the fields of [Config] and whatever else [TConfig]
    adds.  [ConfigOf value] is what a caller passes at run time, where
    nothing is known of the two fields; [Config] is a record whose
    [version] and [status] passed [assertVersion] and [assertStatus],
    the assertion functions that narrow them to numbers. *)
Record ConfigOf (F : Type) : Type := mkConfig {
  version : F;
  status : F;
  extra : list (string * value)
}.
Global Arguments mkConfig {F} _ _ _.
Global Arguments version {F} _.
Global Arguments status {F} _.
Global Arguments extra {F} _.

Abbreviation Config := (ConfigOf number).

Global Instance Config_inhabited : Inhabited Config :=
  populate (mkConfig NaN NaN []).

Definition isActive (c : Config) : bool :=
  num_eq (status c) (status_code ACTIVE).

Inductive InMemoryConfigManagerError : Type :=
  | INVALID_VERSION (version : value)
  | INVALID_STATUS (status : value)
  | REMOVING_ACTIVE_CONFIG (version : number)
  | NO_CONFIG (version : number)
  | ACTIVE_OVERWRITE
  | DUPLICATE_VERSION (version : number)
  | IMMUTABLE_FIELD_UPDATE (field : string).

(** A reference to a config object made by [structuredClone]: its index
    in the store of objects. *)
Abbreviation ref := nat.

(** [fakeDeepFreeze(o)] (package constconst) is a read-only proxy over
    [o]: it refuses writes and forwards reads to [o], so it shows the
    status that [activate] later writes into [o]. *)
Inductive DeepFrozen : Type :=
  | Proxy (target : ref).

Global Instance DeepFrozen_eq_dec : EqDecision DeepFrozen.
Proof. solve_decision. Defined.

Definition target (p : DeepFrozen) : ref :=
  match p with Proxy r => r end.

(** A manager: its three fields, and the config objects they refer to.
    [objects] only grows; an object is written by [activate] alone.  The
    two [Map]s are finite maps: the order of their entries, which only
    [getAll] shows, is left out. *)
Record manager : Type := Manager {
  objects : list Config;
  configs : gmap number ref;
  fakeConfigs : gmap number DeepFrozen;
  activeConfig : option DeepFrozen
}.

Definition M := SE manager InMemoryConfigManagerError.

Definition structuredClone (c : Config) : M ref :=
  λ m, (inr (length (objects m)),
        Manager (objects m ++ [c]) (configs m) (fakeConfigs m) (activeConfig m)).

Definition fakeDeepFreeze (r : ref) : DeepFrozen := Proxy r.

(** The config object behind a reference or a proxy, as it is now. *)
Definition deref (m : manager) (r : ref) : Config := objects m !!! r.
Definition view (m : manager) (p : DeepFrozen) : Config := deref m (target p).

(** [r.status = s], on a record and on the object behind a reference. *)
Definition with_status (s : number) (c : Config) : Config :=
  mkConfig (version c) s (extra c).
Definition set_status (r : ref) (s : number) : M unit :=
  modify (λ m, Manager (alter (with_status s) r (objects m))
                       (configs m) (fakeConfigs m) (activeConfig m)).

Definition configs_set (v : number) (r : ref) : M unit :=
  modify (λ m, Manager (objects m) (<[v:=r]> (configs m))
                       (fakeConfigs m) (activeConfig m)).
Definition fakeConfigs_set (v : number) (p : DeepFrozen) : M unit :=
  modify (λ m, Manager (objects m) (configs m)
                       (<[v:=p]> (fakeConfigs m)) (activeConfig m)).
Definition configs_delete (v : number) : M unit :=
  modify (λ m, Manager (objects m) (delete v (configs m))
                       (fakeConfigs m) (activeConfig m)).
Definition fakeConfigs_delete (v : number) : M unit :=
  modify (λ m, Manager (objects m) (configs m)
                       (delete v (fakeConfigs m)) (activeConfig m)).
Definition set_activeConfig (p : option DeepFrozen) : M unit :=
  modify (λ m, Manager (objects m) (configs m) (fakeConfigs m) p).

(** [new Map()] twice, no active config, no object yet. *)
Definition empty : manager := Manager [] ∅ ∅ None.

(** [this.activeConfig?.version] *)
Definition activeVersion (m : manager) : option number :=
  (λ p, version (view m p)) <$> activeConfig m.

Definition size (m : manager) : nat := base.size (configs m).

Definition assertVersion (version : value) : M number :=
  match as_number version with
  | None => throw (INVALID_VERSION version)
  | Some n =>
      if isNaN n || num_lt n (num 0) then throw (INVALID_VERSION version)
      else mret n
  end.

Definition assertStatus (status : value) : M number :=
  match as_number status with
  | None => throw (INVALID_STATUS status)
  | Some n =>
      if isNaN n then throw (INVALID_STATUS status)
      else if negb (num_eq n (status_code INACTIVE)) &&
              negb (num_eq n (status_code ACTIVE))
      then throw (INVALID_STATUS status)
      else mret n
  end.

(** [get(version?)]; no argument is [undefined]. *)
Definition get (version : value) : M (option DeepFrozen) :=
  if ToBoolean version then
    v ← assertVersion version;
    m ← get_state;
    mret (fakeConfigs m !! v)
  else
    m ← get_state;
    match activeConfig m with
    | Some p => mret (fakeConfigs m !! (ConfigManager.version (view m p)))
    | None => mret None
    end.

Definition getAll (m : manager) : list DeepFrozen :=
  (map_to_list (fakeConfigs m)).*2.

Definition activate (version : value) : M unit :=
  v ← assertVersion version;
  m ← get_state;
  match configs m !! v with
  | None => throw (NO_CONFIG v)
  | Some config =>
      let activeVersion := activeVersion m in
      let activeConfig :=
        match activeVersion with
        | Some a => configs m !! a
        | None => None
        end in
      if bool_decide (activeConfig = Some config) then mret tt
      else
        match activeConfig with
        | Some activeConfig =>
            set_status activeConfig (status_code INACTIVE);;
            set_status config (status_code ACTIVE)
        | None => set_status config (status_code ACTIVE)
        end;;
        m ← get_state;
        set_activeConfig (fakeConfigs m !! (ConfigManager.version (deref m config)))
  end.

Definition add (config : ConfigOf value) : M unit :=
  v ← assertVersion (version config);
  s ← assertStatus (status config);
  m ← get_state;
  if num_eq s (status_code ACTIVE) && bool_decide (is_Some (activeConfig m))
  then throw ACTIVE_OVERWRITE
  else if negb (bool_decide (is_Some (configs m !! v))) then
    clone ← structuredClone (mkConfig v s (extra config));
    let fakeClone := fakeDeepFreeze clone in
    configs_set v clone;;
    fakeConfigs_set v fakeClone;;
    if num_eq s (status_code ACTIVE) then activate (version config)
    else mret tt
  else throw (DUPLICATE_VERSION v).

Definition update (updatedConfig : ConfigOf value) : M unit :=
  v ← assertVersion (version updatedConfig);
  s ← assertStatus (status updatedConfig);
  m ← get_state;
  match configs m !! v with
  | None => mret tt
  | Some config =>
      if negb (num_eq s (status (deref m config)))
      then throw (IMMUTABLE_FIELD_UPDATE "status")
      else
        clone ← structuredClone (mkConfig v s (extra updatedConfig));
        let fakeClone := fakeDeepFreeze clone in
        configs_set v clone;;
        fakeConfigs_set v fakeClone
  end.

Definition remove (version : value) : M unit :=
  v ← assertVersion version;
  m ← get_state;
  match configs m !! v with
  | None => mret tt
  | Some config =>
      if isActive (deref m config) then throw (REMOVING_ACTIVE_CONFIG v)
      else configs_delete v;; fakeConfigs_delete v
  end.

(** [new InMemoryConfigManager(configs?)]: a throwing [add] makes the
    constructor throw, and no manager is made. *)
Definition constructor (configs : option (list (ConfigOf value)))
    : InMemoryConfigManagerError + manager :=
  match configs with
  | None => inr empty
  | Some cs =>
      foldl (λ acc config,
               match acc with
               | inl e => inl e
               | inr m => match add config m with
                          | (inl e, _) => inl e
                          | (inr _, m') => inr m'
                          end
               end) (inr empty) cs
  end.

(** One call of a mutating method. *)
Inductive call : Type :=
  | Add (config : ConfigOf value)
  | Update (updatedConfig : ConfigOf value)
  | Remove (version : value)
  | Activate (version : value).

Definition perform (c : call) : M unit :=
  match c with
  | Add config => add config
  | Update config => update config
  | Remove v => remove v
  | Activate v => activate v
  end.

(** A sequence of calls, each run to completion; the caller goes on
    after a call that threw. *)
Definition run (cs : list call) (m : manager) : manager :=
  foldl (λ m c, after (perform c) m) m cs.

(** The record stored under a version, and what the frozen snapshot
    stored under it shows. *)
Definition stored (m : manager) (v : number) : option Config :=
  deref m <$> configs m !! v.
Definition snapshot (m : manager) (v : number) : option Config :=
  view m <$> fakeConfigs m !! v.

(** The number of stored records whose status is ACTIVE. *)
Definition active_count (m : manager) : nat :=
  length (filter (λ kv, isActive (deref m kv.2) = true)
                 (map_to_list (configs m))).

(** What [assertVersion] and [assertStatus] let through. *)
Definition valid_version (n : number) : bool :=
  negb (isNaN n) && negb (num_lt n (num 0)).
Definition valid_status (n : number) : bool :=
  num_eq n (status_code INACTIVE) || num_eq n (status_code ACTIVE).

(** A manager as a program can have it: made by the constructor, then
    used through the four mutating methods. *)
Definition reachable (m : manager) : Prop :=
  ∃ init cs m0, constructor init = inr m0 ∧ m = run cs m0.

(** The shape of the three fields: each key refers to an existing object
    that carries the key as its version, the frozen map holds the proxy of
    the object the canonical map holds, and the active pointer refers to
    an existing object. *)
Record structured (m : manager) : Prop := {
  st_refs : ∀ v r, configs m !! v = Some r →
    (r < length (objects m))%nat ∧ version (deref m r) = v;
  st_fake : fakeConfigs m = Proxy <$> configs m;
  st_active : ∀ p, activeConfig m = Some p →
    (target p < length (objects m))%nat
}.

(** Every stored record whose status is ACTIVE has a version in [P]. *)
Definition actives_among (m : manager) (P : number → Prop) : Prop :=
  ∀ v r, configs m !! v = Some r → isActive (deref m r) = true → P v.

(** The version the active pointer shows is stored, with status ACTIVE. *)
Definition active_stored (m : manager) : Prop :=
  ∀ a, activeVersion m = Some a →
    ∃ r, configs m !! a = Some r ∧ isActive (deref m r) = true.

Definition well_formed (m : manager) : Prop :=
  structured m ∧
  actives_among m (λ v, activeVersion m = Some v) ∧
  active_stored m.

(** The state [activate] leaves when the version is valid. *)
Definition activated (n : number) (m : manager)
    : (InMemoryConfigManagerError + unit) * manager :=
  match configs m !! n with
  | None => (inl (NO_CONFIG n), m)
  | Some config =>
      let previous :=
        match activeVersion m with
        | Some a => configs m !! a
        | None => None
        end in
      if bool_decide (previous = Some config) then (inr tt, m)
      else
        let objs :=
          alter (with_status (status_code ACTIVE)) config
            match previous with
            | Some r => alter (with_status (status_code INACTIVE)) r (objects m)
            | None => objects m
            end in
        (inr tt, Manager objs (configs m) (fakeConfigs m)
                   (fakeConfigs m !! version (objs !!! config)))
  end.

(** The state after [structuredClone] made the object [c] and both maps
    were set to it under [v]. *)
Definition allocated (v : number) (c : Config) (m : manager) : manager :=
  Manager (objects m ++ [c])
          (<[v:=length (objects m)]> (configs m))
          (<[v:=Proxy (length (objects m))]> (fakeConfigs m))
          (activeConfig m).

(** The example of the specification: version 1 added ACTIVE, version 2
    added INACTIVE, then [activate(2)]. *)
Definition example_configs : list (ConfigOf value) :=
  [mkConfig (VNumber (num 1)) (VNumber (status_code ACTIVE)) [];
   mkConfig (VNumber (num 2)) (VNumber (status_code INACTIVE)) []].

Definition example_manager : manager :=
  run [Add (mkConfig (VNumber (num 1)) (VNumber (status_code ACTIVE)) []);
       Add (mkConfig (VNumber (num 2)) (VNumber (status_code INACTIVE)) [])]
      empty.

End ConfigManager.

(** ** utils: the two searches the Catalog imports *)
Module utils.

(** Modelled from the spec: the loop of [insertionIndex] of [./utils],
    which is not among the sources; a binary search for the first index in
    [low, high) whose element does not compare below [x].  [fuel] bounds
    the iterations. *)
Fixpoint lower_bound {A} (fuel : nat) (arr : list A)
    (compare : A → A → number) (x : A) (low high : nat) : nat :=
  match fuel with
  | O => low
  | S fuel =>
      if (low <? high)%nat then
        let mid := ((low + high) / 2)%nat in
        match arr !! mid with
        | Some a =>
            if num_lt (compare a x) (num 0)
            then lower_bound fuel arr compare x (S mid) high
            else lower_bound fuel arr compare x low mid
        | None => low
        end
      else low
  end.

(** Modelled from the spec: [insertionIndex] of [./utils], which is not
    among the sources.  "Given a sorted sequence, a total-order
    comparator, and a candidate, return the index at which the candidate
    belongs to preserve order", found by binary search; it is the position
    that "a record with the same identity already occupies" when there is
    one, that is the first position whose element is not below the
    candidate.  The interval halves at each step, so [length arr]
    iterations are always enough. *)
Definition insertionIndex {A} (arr : list A) (compare : A → A → number)
    (x : A) : nat :=
  lower_bound (length arr) arr compare x 0 (length arr).

(** Modelled from the spec: [bSearch] of [./utils], which is not among
    the sources.  The binary-search lookup: the index of the element that
    compares equal to [x] (neither below the other), or [-1]. *)
Definition bSearch {A} (arr : list A) (compare : A → A → number)
    (x : A) : Z :=
  let pos := insertionIndex arr compare x in
  match arr !! pos with
  | Some a => if num_lt (compare x a) (num 0) then -1 else Z.of_nat pos
  | None => -1
  end.

End utils.

(** ** InMemoryCatalog *)
Module Catalog.
Import utils.

(** An object with the field of [Item] and whatever else [TItem] adds:
    [ItemOf value] as a caller passes it at run time, [Item] once [id]
    passed [assertId] and is narrowed to a number. *)
Record ItemOf (F : Type) : Type := mkItem {
  id : F;
  extra : list (string * value)
}.
Global Arguments mkItem {F} _ _.
Global Arguments id {F} _.
Global Arguments extra {F} _.

Abbreviation Item := (ItemOf number).

Inductive InMemoryCatalogError : Type :=
  | INVALID_ID (id : value)
  | INDEX_ERROR (id : number)
  | DUPLICATE_INSERT_ERROR (id : number).

(** The only field is [#items]; its elements are deep-frozen clones,
    which nothing can write to, so they are plain values here. *)
Definition M := SE (list Item) InMemoryCatalogError.

Definition itemIdComparator (a b : Item) : number :=
  num_sub (id a) (id b).

(** [#findIndex(x)], for a number and for an item. *)
Definition findIndex_id (x : number) : M Z :=
  items ← get_state;
  let value := mkItem x [] in
  mret (bSearch items itemIdComparator value).
Definition findIndex_item (x : Item) : M Z :=
  items ← get_state;
  mret (bSearch items itemIdComparator x).

Definition assertId (id : value) : M number :=
  match as_number id with
  | None => throw (INVALID_ID id)
  | Some n =>
      if isNaN n || num_lt n (num 1) then throw (INVALID_ID id)
      else mret n
  end.

(** [arr.splice(pos, 0, x)] and [arr.splice(index, 1)] *)
Definition splice_insert {A} (pos : nat) (x : A) (arr : list A) : list A :=
  take pos arr ++ x :: drop pos arr.
Definition splice_delete {A} (index : nat) (arr : list A) : list A :=
  take index arr ++ drop (S index) arr.

Definition insert (item : ItemOf value) : M unit :=
  n ← assertId (id item);
  let frozenClone := mkItem n (extra item) in
  items ← get_state;
  let pos := insertionIndex items (λ a b, num_sub (id a) (id b)) frozenClone in
  match items !! pos with
  | Some itemAtPos =>
      if negb (num_eq (id itemAtPos) n)
      then modify (splice_insert pos frozenClone)
      else throw (DUPLICATE_INSERT_ERROR n)
  | None => modify (splice_insert pos frozenClone)
  end.

(** [bSearch] answers [-1] or an index of [#items], so the assignment
    [this.#items[index] = frozenClone] overwrites an element. *)
Definition update (item : ItemOf value) : M unit :=
  n ← assertId (id item);
  index ← findIndex_item (mkItem n (extra item));
  if -1 <? index then
    let frozenClone := mkItem n (extra item) in
    modify (λ items, <[Z.to_nat index:=frozenClone]> items)
  else throw (INDEX_ERROR n).

Definition findById (id : value) : M (option Item) :=
  n ← assertId id;
  index ← findIndex_id n;
  if -1 <? index then
    items ← get_state;
    mret (items !! Z.to_nat index)
  else mret None.

Definition fetchAll (items : list Item) : list Item :=
  foldl (λ copyArray item, copyArray ++ [item]) [] items.

Definition remove (id : value) : M unit :=
  n ← assertId id;
  index ← findIndex_id n;
  if -1 <? index then modify (splice_delete (Z.to_nat index))
  else mret tt.

Definition size (items : list Item) : nat := length items.

(** [new InMemoryCatalog(items?)] starts from [[]]; a sequence of
    [insert] calls, each run to completion, the caller going on after
    one that threw. *)
Definition inserts (its : list (ItemOf value)) (items : list Item) : list Item :=
  foldl (λ items item, after (insert item) items) items its.

(** The spec's wording of identity validation: "type must be an
    integer, not NaN, and ≥ 1". *)
Definition spec_valid_identity (id : value) : bool :=
  match as_number id with
  | Some n => isInteger n && negb (isNaN n) && num_le (num 1) n
  | None => false
  end.

(** What [assertId] lets through: a number that is not NaN and is at
    least 1. *)
Definition valid_identity (id : value) : bool :=
  match as_number id with
  | Some n => negb (isNaN n) && num_le (num 1) n
  | None => false
  end.

(** Strictly ascending identities, position by position. *)
Definition ascending (items : list Item) : Prop :=
  ∀ i j a b, items !! i = Some a → items !! j = Some b → (i < j)%nat →
    num_lt (id a) (id b) = true.

(** Stored identities passed [assertId] and ascend strictly. *)
Definition well_formed (items : list Item) : Prop :=
  ascending items ∧ ∀ a, a ∈ items → valid_identity (VNumber (id a)) = true.

Definition is_INVALID_ID {A} (r : InMemoryCatalogError + A) : bool :=
  match r with
  | inl (INVALID_ID _) => true
  | _ => false
  end.

End Catalog.

(** ** InMemoryCatalog: the constructor and sequences of calls *)
Module CatalogCalls.
Import Catalog.

(** [new InMemoryCatalog(items?)]: [#items] starts empty and each item is
    inserted in turn; an [insert] that throws makes the constructor throw,
    and no catalog is made. *)
Definition constructor (items : option (list (ItemOf value)))
    : InMemoryCatalogError + list Item :=
  match items with
  | None => inr []
  | Some its =>
      foldl (λ acc item,
               match acc with
               | inl e => inl e
               | inr items => match insert item items with
                              | (inl e, _) => inl e
                              | (inr _, items') => inr items'
                              end
               end) (inr []) its
  end.

(** One call of a mutating method. *)
Inductive call : Type :=
  | Insert (item : ItemOf value)
  | Update (item : ItemOf value)
  | Remove (id : value).

Definition perform (c : call) : M unit :=
  match c with
  | Insert item => insert item
  | Update item => update item
  | Remove id => remove id
  end.

(** A sequence of calls, each run to completion; the caller goes on after
    a call that threw. *)
Definition run (cs : list call) (items : list Item) : list Item :=
  foldl (λ items c, after (perform c) items) items cs.

(** A stored item as the caller's object it was cloned from. *)
Definition as_passed (a : Item) : ItemOf value :=
  mkItem (VNumber (id a)) (extra a).

End CatalogCalls.

(** ** InMemoryConfigManager: what the two assertions accept *)
Module ConfigManagerChecks.
Import ConfigManager.

(** [assertVersion(v)] returns: [v] is a number, not NaN, not below 0. *)
Definition accepts_version (v : value) : bool :=
  match as_number v with
  | Some n => valid_version n
  | None => false
  end.

(** [assertStatus(s)] returns: [s] is the number 0 or the number 1. *)
Definition accepts_status (s : value) : bool :=
  match as_number s with
  | Some n => valid_status n
  | None => false
  end.

(** Every stored record passed both assertions. *)
Definition records_valid (m : manager) : Prop :=
  ∀ v r, configs m !! v = Some r →
    valid_version v = true ∧ valid_status (status (deref m r)) = true.

End ConfigManagerChecks.

(** * Properties *)

(** Unfolds the monad, leaving the state transformer of a method. *)
Ltac se_unfold :=
  unfold mbind, mret, se_mbind, se_mret, se_bind, se_ret, throw, get_state,
    modify, after, outcome in *.

(** ** Order on numbers *)
Module NumberFacts.

Lemma num_eq_true x y : num_eq x y = true ↔ isNaN x = false ∧ x = y.
Proof.
  unfold num_eq. rewrite andb_true_iff, negb_true_iff, bool_decide_eq_true.
  done.
Qed.

Lemma num_eq_refl x : isNaN x = false → num_eq x x = true.
Proof. intros. by apply num_eq_true. Qed.

Lemma num_lt_irrefl x : num_lt x x = false.
Proof.
  destruct x; simpl; try done. apply bool_decide_eq_false.
  apply (irreflexivity Qclt).
Qed.

Lemma num_lt_trans x y z :
  num_lt x y = true → num_lt y z = true → num_lt x z = true.
Proof.
  destruct x, y, z; simpl; try done.
  rewrite !bool_decide_eq_true. apply Qclt_trans.
Qed.

Lemma num_lt_not_NaN x y :
  num_lt x y = true → isNaN x = false ∧ isNaN y = false.
Proof. by destruct x, y. Qed.

Lemma num_lt_asym x y : num_lt x y = true → num_lt y x = false.
Proof.
  intros H. destruct (num_lt y x) eqn:E; [|done].
  pose proof (num_lt_trans _ _ _ H E) as Hxx.
  by rewrite num_lt_irrefl in Hxx.
Qed.

Lemma num_lt_neq x y : num_lt x y = true → num_eq x y = false.
Proof.
  intros H. destruct (num_eq x y) eqn:E; [|done].
  apply num_eq_true in E as [_ ->]. by rewrite num_lt_irrefl in H.
Qed.

(** Two numbers that are not NaN are equal or one is below the other. *)
Lemma num_lt_total x y :
  isNaN x = false → isNaN y = false →
  num_lt x y = false → num_eq x y = false → num_lt y x = true.
Proof.
  unfold num_eq. destruct x as [| |p|], y as [| |q|]; simpl; try done.
  rewrite bool_decide_eq_false, bool_decide_eq_false, bool_decide_eq_true.
  intros _ _ Hlt Hne. apply Qclt_nge. intros Hle.
  apply Qcle_lt_or_eq in Hle as [?| ->]; [|done].
  by apply Hlt.
Qed.

(** The sign of a difference: [a - b < 0] exactly when [a < b]. *)
Lemma num_sub_neg x y :
  num_lt (num_sub x y) (num 0) = num_lt x y.
Proof.
  destruct x as [| |p|], y as [| |q|]; simpl; try done.
  apply bool_decide_ext.
  change (Q2Qc (inject_Z 0)) with 0%Qc.
  rewrite (Qcplus_lt_mono_r (p - q) 0 q).
  by replace (p - q + q)%Qc with p by ring;
     replace (0 + q)%Qc with q by ring.
Qed.

Lemma num_le_1 n :
  isNaN n = false → num_le (num 1) n = negb (num_lt n (num 1)).
Proof.
  intros Hn. unfold num_le.
  destruct (num_lt (num 1) n) eqn:E1; simpl.
  - by rewrite (num_lt_asym _ _ E1).
  - destruct (num_eq (num 1) n) eqn:E2.
    + apply num_eq_true in E2 as [_ <-]. by rewrite num_lt_irrefl.
    + by rewrite (num_lt_total (num 1) n).
Qed.

End NumberFacts.

(** ** PubSubHandler *)
Module PubSubTheory.
Import PubSub.

Ltac run_method :=
  unfold perform, connect, disconnect, subscribe, unsubscribe, publish,
    connectionCheck, subModeCheck, pubModeCheck, await, set_state in *;
  se_unfold; simpl in *.

Lemma isConnected_iff h :
  isConnected h = true ↔ state h = CONNECTED ∨ state h = SUBSCRIBED.
Proof.
  unfold isConnected. destruct (state h); simpl; split; intros H;
    try done; try (destruct H; done); auto.
Qed.

Lemma is_mode_inj v m1 m2 :
  is_mode v m1 = true → is_mode v m2 = true → m1 = m2.
Proof.
  destruct v; simpl; try done. unfold num_eq.
  rewrite !andb_true_iff, !bool_decide_eq_true. intros [_ ->] [_ H].
  destruct m1, m2; try done; vm_compute in H; discriminate.
Qed.

Lemma PUB_cannot_subscribe h :
  is_mode (mode h) PUB = true → canSubscribe h = false.
Proof.
  intros H. unfold canSubscribe.
  destruct (is_mode (mode h) SUB) eqn:E1;
    [by pose proof (is_mode_inj _ _ _ H E1)|].
  destruct (is_mode (mode h) DUAL) eqn:E2;
    [by pose proof (is_mode_inj _ _ _ H E2)|]. done.
Qed.

Lemma SUB_cannot_publish h :
  is_mode (mode h) SUB = true → canPublish h = false.
Proof.
  intros H. unfold canPublish.
  destruct (is_mode (mode h) PUB) eqn:E1;
    [by pose proof (is_mode_inj _ _ _ H E1)|].
  destruct (is_mode (mode h) DUAL) eqn:E2;
    [by pose proof (is_mode_inj _ _ _ H E2)|]. done.
Qed.

(** What [_validateMode] accepts: the numbers that are the value of a
    member of [PubSubStates]. *)
Lemma _validateMode_spec mode :
  _validateMode mode = true ↔
  ∃ s : PubSubStates, mode = VNumber (num (state_code s)).
Proof.
  unfold _validateMode, in_PubSubStates. split.
  - destruct mode; try done. cbn [as_number]. intros H.
    apply bool_decide_eq_true, list_elem_of_fmap in H as (s & -> & _).
    by exists s.
  - intros [s ->]. cbn [as_number].
    apply bool_decide_eq_true, list_elem_of_fmap. exists s.
    split; [done|]. destruct s; set_solver.
Qed.

(** Construction with one of the three modes succeeds, in state
    DISCONNECTED. *)
Lemma constructor_recognized (m : PubSubModes) :
  constructor false (VNumber (num (mode_code m))) =
  inr (Handler DISCONNECTED (VNumber (num (mode_code m)))).
Proof. by destruct m. Qed.

(** C3, at the failing input: a subclass constructed with mode [-1],
    which is the value of no member of [PubSubModes], is not refused with
    "Invalid Mode": [_validateMode] tests membership in [PubSubStates],
    where [-1] is UNSUBSCRIBED, and the handler is made. *)
Theorem constructor_accepts_state_code :
  (∀ m : PubSubModes, VNumber (num (-1)) ≠ VNumber (num (mode_code m))) ∧
  constructor false (VNumber (num (-1))) =
    inr (Handler DISCONNECTED (VNumber (num (-1)))).
Proof.
  split; [|reflexivity].
  intros m H. destruct m; vm_compute in H; discriminate.
Qed.

(** C8: every transition follows the table.  [connect] does nothing when
    the state is at least CONNECTED and else awaits its hook and sets
    CONNECTED; [disconnect] does nothing below CONNECTED and else sets
    DISCONNECTED; [subscribe] and [unsubscribe] throw "Not Connected"
    when not connected whatever the mode, "Can Not Subscribe" when
    connected in mode PUB, and set SUBSCRIBED and DISCONNECTED when
    connected in a mode that can subscribe; [publish] throws
    "Not Connected", "Can Not Publish" when connected in mode SUB, and
    else leaves the state as it is.  A rejected hook leaves the state
    unchanged and its reason is rethrown. *)
Theorem transitions_conform (h : handler) (k : hook) :
  (isConnected h = true → connect k h = (inr tt, h)) ∧
  (isConnected h = false →
     connect Fulfilled h = (inr tt, Handler CONNECTED (mode h)) ∧
     ∀ r, connect (Rejected r) h = (inl (HookRejected r), h)) ∧
  (isConnected h = false → disconnect k h = (inr tt, h)) ∧
  (isConnected h = true →
     disconnect Fulfilled h = (inr tt, Handler DISCONNECTED (mode h)) ∧
     ∀ r, disconnect (Rejected r) h = (inl (HookRejected r), h)) ∧
  (isConnected h = false →
     subscribe k h = (inl (PubSubHandlerError "Not Connected"), h) ∧
     unsubscribe k h = (inl (PubSubHandlerError "Not Connected"), h) ∧
     publish k h = (inl (PubSubHandlerError "Not Connected"), h)) ∧
  (isConnected h = true → is_mode (mode h) PUB = true →
     subscribe k h = (inl (PubSubHandlerError "Can Not Subscribe"), h) ∧
     unsubscribe k h = (inl (PubSubHandlerError "Can Not Subscribe"), h)) ∧
  (isConnected h = true → canSubscribe h = true →
     subscribe Fulfilled h = (inr tt, Handler SUBSCRIBED (mode h)) ∧
     unsubscribe Fulfilled h = (inr tt, Handler DISCONNECTED (mode h)) ∧
     ∀ r, subscribe (Rejected r) h = (inl (HookRejected r), h) ∧
          unsubscribe (Rejected r) h = (inl (HookRejected r), h)) ∧
  (isConnected h = true → is_mode (mode h) SUB = true →
     publish k h = (inl (PubSubHandlerError "Can Not Publish"), h)) ∧
  (isConnected h = true → canPublish h = true →
     publish Fulfilled h = (inr tt, h) ∧
     ∀ r, publish (Rejected r) h = (inl (HookRejected r), h)).
Proof.
  repeat split; intros; run_method;
    repeat match goal with
      | H : is_mode _ PUB = true |- _ => apply PUB_cannot_subscribe in H
      | H : is_mode _ SUB = true |- _ => apply SUB_cannot_publish in H
      | H : _ = _ |- _ => rewrite H; simpl
      end; try done.
Qed.

Lemma transitions_conform_witness :
  subscribe Fulfilled (Handler CONNECTED (VNumber (num 0))) =
    (inr tt, Handler SUBSCRIBED (VNumber (num 0))) ∧
  publish Fulfilled (Handler CONNECTED (VNumber (num 0))) =
    (inl (PubSubHandlerError "Can Not Publish"),
     Handler CONNECTED (VNumber (num 0))).
Proof.
  pose proof (transitions_conform
                (Handler CONNECTED (VNumber (num 0))) Fulfilled)
    as (_ & _ & _ & _ & _ & _ & Hsub & Hpub & _).
  split.
  - apply Hsub; reflexivity.
  - apply Hpub; reflexivity.
Defined.

(** No method sets UNSUBSCRIBED. *)
Lemma perform_not_UNSUBSCRIBED c h :
  state h ≠ UNSUBSCRIBED → state (after (perform c) h) ≠ UNSUBSCRIBED.
Proof.
  intros Hh. destruct c as [k|k|k|k|k]; run_method;
    destruct (isConnected h); simpl; try done;
    try destruct (canSubscribe h); try destruct (canPublish h);
    simpl; try done; destruct k; simpl; done.
Qed.

Lemma run_not_UNSUBSCRIBED cs h :
  state h ≠ UNSUBSCRIBED → state (run cs h) ≠ UNSUBSCRIBED.
Proof.
  revert h. induction cs as [|c cs IH]; intros h Hh; [done|].
  apply IH, perform_not_UNSUBSCRIBED, Hh.
Qed.

(** C10: from construction on, through every sequence of calls and
    whatever the hooks do, the state is DISCONNECTED, CONNECTED or
    SUBSCRIBED, never UNSUBSCRIBED. *)
Theorem state_never_UNSUBSCRIBED is_base mode h (cs : list call) :
  constructor is_base mode = inr h →
  state (run cs h) ≠ UNSUBSCRIBED ∧
  state (run cs h) ∈ [DISCONNECTED; CONNECTED; SUBSCRIBED].
Proof.
  intros Hc.
  assert (state h = DISCONNECTED) as Hh.
  { unfold constructor in Hc. destruct is_base; [done|].
    destruct (_validateMode mode); simpl in Hc; [|done]. by inversion Hc. }
  assert (state (run cs h) ≠ UNSUBSCRIBED) as Hr
    by (apply run_not_UNSUBSCRIBED; by rewrite Hh).
  split; [done|]. destruct (state (run cs h)); [done|set_solver..].
Qed.

Lemma state_never_UNSUBSCRIBED_witness :
  let cs := [Subscribe Fulfilled; Connect Fulfilled; Subscribe Fulfilled;
             Unsubscribe Fulfilled; Publish (Rejected "down")] in
  let h := Handler DISCONNECTED (VNumber (num 2)) in
  state (run cs h) ≠ UNSUBSCRIBED ∧
  state (run cs h) ∈ [DISCONNECTED; CONNECTED; SUBSCRIBED].
Proof.
  intros cs h.
  apply (state_never_UNSUBSCRIBED false (VNumber (num 2)) h cs).
  reflexivity.
Defined.

End PubSubTheory.

(** ** InMemoryCatalog *)
Module CatalogTheory.
Import utils Catalog NumberFacts.
Local Open Scope nat_scope.

Ltac run_method :=
  unfold insert, update, findById, remove, findIndex_id, findIndex_item,
    assertId in *;
  se_unfold; simpl in *.

(** *** The binary search *)
Section lower_bound.
Context {A : Type} (arr : list A) (compare : A → A → number) (x : A).

Let below (a : A) : bool := num_lt (compare a x) (num 0).

(** On a sorted array the elements below [x] form a prefix. *)
Hypothesis below_prefix : ∀ i j a b,
  arr !! i = Some a → arr !! j = Some b → i ≤ j →
  below b = true → below a = true.

Lemma lower_bound_correct fuel low high :
  low ≤ high ≤ length arr → high - low ≤ fuel →
  (∀ i a, i < low → arr !! i = Some a → below a = true) →
  (∀ i a, high ≤ i → arr !! i = Some a → below a = false) →
  let p := lower_bound fuel arr compare x low high in
  low ≤ p ≤ high ∧
  (∀ i a, i < p → arr !! i = Some a → below a = true) ∧
  (∀ i a, p ≤ i → arr !! i = Some a → below a = false).
Proof.
  revert low high.
  induction fuel as [|fuel IH]; intros low high Hb Hf Hlo Hhi;
    cbn [lower_bound].
  { assert (high = low) as -> by lia. auto with lia. }
  destruct (Nat.ltb_spec low high) as [Hlt|Hge].
  2:{ assert (high = low) as -> by lia. auto with lia. }
  set (mid := (low + high) / 2).
  assert (low ≤ mid < high) as Hmid.
  { subst mid. split.
    - apply Nat.div_le_lower_bound; lia.
    - apply Nat.Div0.div_lt_upper_bound; lia. }
  destruct (lookup_lt_is_Some_2 arr mid) as [a Ha]; [lia|].
  rewrite Ha. fold (below a).
  destruct (below a) eqn:Hbelow.
  - destruct (IH (S mid) high) as (? & ? & ?); try lia; auto.
    + intros i b Hi Hb'. apply (below_prefix i mid b a); auto with lia.
    + split; [lia|auto].
  - destruct (IH low mid) as (? & ? & ?); try lia; auto.
    + intros i b Hi Hb'. destruct (below b) eqn:E; [|done].
      rewrite (below_prefix mid i a b) in Hbelow; auto.
    + split; [lia|auto].
Qed.

Lemma insertionIndex_correct :
  let p := insertionIndex arr compare x in
  p ≤ length arr ∧
  (∀ i a, i < p → arr !! i = Some a → below a = true) ∧
  (∀ i a, p ≤ i → arr !! i = Some a → below a = false).
Proof.
  destruct (lower_bound_correct (length arr) 0 (length arr))
    as (? & ? & ?); try lia.
  - intros i a Hi Ha. apply lookup_lt_Some in Ha. lia.
  - unfold insertionIndex. split; [lia|auto].
Qed.
End lower_bound.

(** [bSearch] answers [-1] or an index of the array. *)
Lemma bSearch_range {A} (arr : list A) compare x :
  bSearch arr compare x = (-1)%Z ∨
  (0 ≤ bSearch arr compare x < Z.of_nat (length arr))%Z.
Proof.
  unfold bSearch.
  destruct (arr !! insertionIndex arr compare x) eqn:E; [|by left].
  destruct (num_lt _ _); [by left|right].
  apply lookup_lt_Some in E. lia.
Qed.

(** *** Splicing *)
Lemma splice_insert_lookup {A} (arr : list A) pos x i :
  pos ≤ length arr →
  splice_insert pos x arr !! i =
    if decide (i < pos) then arr !! i
    else if decide (i = pos) then Some x
    else arr !! (i - 1).
Proof.
  intros Hpos. unfold splice_insert.
  destruct (decide (i < pos)) as [Hlt|Hge].
  - rewrite lookup_app_l by (rewrite length_take; lia).
    by apply lookup_take_lt.
  - rewrite lookup_app_r by (rewrite length_take; lia).
    rewrite length_take_le by done.
    destruct (decide (i = pos)) as [->|Hne].
    + by rewrite Nat.sub_diag.
    + destruct (i - pos) as [|k] eqn:E; [lia|]. simpl.
      rewrite lookup_drop. f_equal. lia.
Qed.

Lemma splice_insert_elem_of {A} (arr : list A) pos x a :
  a ∈ splice_insert pos x arr ↔ a = x ∨ a ∈ arr.
Proof.
  unfold splice_insert.
  rewrite <-(take_drop pos arr) at 3.
  rewrite !elem_of_app, elem_of_cons. tauto.
Qed.

Lemma splice_insert_length {A} (arr : list A) pos x :
  length (splice_insert pos x arr) = S (length arr).
Proof.
  unfold splice_insert.
  rewrite <-(take_drop pos arr) at 3.
  rewrite !length_app. simpl. lia.
Qed.

Lemma splice_insert_ascending items pos x :
  pos ≤ length items → ascending items →
  (∀ i a, i < pos → items !! i = Some a → num_lt (id a) (id x) = true) →
  (∀ i a, pos ≤ i → items !! i = Some a → num_lt (id x) (id a) = true) →
  ascending (splice_insert pos x items).
Proof.
  intros Hpos Hasc Hbefore Hafter i j a b.
  rewrite !splice_insert_lookup by done.
  intros Ha Hb Hij.
  repeat case_decide; simplify_eq; try lia.
  - eapply Hasc; eauto.
  - eapply Hbefore; eauto.
  - eapply (Hasc i (j - 1)); eauto with lia.
  - eapply (Hafter (j - 1)); eauto with lia.
  - eapply (Hasc (i - 1) (j - 1)); eauto with lia.
Qed.

(** *** The collection between two calls *)

Lemma valid_identity_spec v :
  valid_identity v = true ↔
  ∃ n, v = VNumber n ∧ isNaN n = false ∧ num_lt n (num 1) = false.
Proof.
  unfold valid_identity. destruct v as [| | |n| |]; simpl;
    try (split; [done|by intros (? & ? & _)]).
  rewrite andb_true_iff, negb_true_iff. split.
  - intros [Hn H]. rewrite num_le_1 in H by done.
    apply negb_true_iff in H. eauto.
  - intros (? & [= <-] & Hn & H). by rewrite num_le_1, H.
Qed.

Lemma assertId_valid v n items :
  valid_identity v = true → v = VNumber n →
  assertId v items = (inr n, items).
Proof.
  intros (n' & -> & Hn & H)%valid_identity_spec [= <-].
  unfold assertId; simpl. by rewrite Hn, H.
Qed.

Lemma assertId_invalid v items :
  valid_identity v = false → assertId v items = (inl (INVALID_ID v), items).
Proof.
  intros Hv. unfold assertId.
  destruct (as_number v) as [n|] eqn:E; [|done].
  destruct v; simplify_eq/=.
  destruct (isNaN n) eqn:Hn; [done|]. simpl.
  destruct (num_lt n (num 1)) eqn:H; [done|].
  unfold valid_identity in Hv. simpl in Hv.
  by rewrite Hn, num_le_1, H in Hv.
Qed.

(** The two ways a validated [insert] ends on a well-formed collection:
    the identity is stored already and the call throws, or it is new and
    the clone is spliced in where order is kept. *)
Lemma insert_cases item n items :
  well_formed items → id item = VNumber n →
  valid_identity (id item) = true →
  let frozenClone := mkItem n (extra item) in
  ((∃ a, a ∈ items ∧ id a = n) ∧
   insert item items = (inl (DUPLICATE_INSERT_ERROR n), items)) ∨
  ((∀ a, a ∈ items → id a ≠ n) ∧
   ∃ pos, insert item items = (inr tt, splice_insert pos frozenClone items) ∧
          well_formed (splice_insert pos frozenClone items)).
Proof.
  intros [Hasc Hval] Hid Hv frozenClone.
  pose proof Hv as (n' & Hn' & HnNaN & Hn1)%valid_identity_spec.
  rewrite Hid in Hn'. injection Hn' as <-.
  assert (∀ a, a ∈ items → isNaN (id a) = false) as HNaN.
  { intros a Ha. apply Hval, valid_identity_spec in Ha as (? & [= <-] & ? & _).
    done. }
  destruct (insertionIndex_correct items
              (λ a b, num_sub (id a) (id b)) frozenClone)
    as (Hpos & Hbefore & Hafter).
  { intros i j a b Ha Hb Hij. rewrite !num_sub_neg. intros Hlt.
    destruct (decide (i = j)) as [->|Hne]; [by simplify_eq|].
    eapply num_lt_trans; [|done]. eapply Hasc; eauto with lia. }
  unfold insert. se_unfold. rewrite (assertId_valid _ n) by done.
  cbn zeta. fold frozenClone.
  set (pos := insertionIndex items _ frozenClone) in *.
  assert (∀ i a, i < pos → items !! i = Some a → num_lt (id a) n = true)
    as Hbefore'.
  { intros i a Hi Ha. specialize (Hbefore i a Hi Ha).
    by rewrite num_sub_neg in Hbefore. }
  assert (∀ i a, pos ≤ i → items !! i = Some a → num_lt (id a) n = false)
    as Hafter'.
  { intros i a Hi Ha. specialize (Hafter i a Hi Ha).
    by rewrite num_sub_neg in Hafter. }
  assert ((∀ i a, pos ≤ i → items !! i = Some a →
                  num_lt n (id a) = true) →
          (∀ a, a ∈ items → id a ≠ n) ∧
          well_formed (splice_insert pos frozenClone items)) as Hnew.
  { intros Hgt. split.
    - intros a [i Hi]%list_elem_of_lookup Heq.
      destruct (decide (i < pos)).
      + specialize (Hbefore' i a ltac:(lia) Hi).
        by rewrite Heq, num_lt_irrefl in Hbefore'.
      + specialize (Hgt i a ltac:(lia) Hi).
        by rewrite Heq, num_lt_irrefl in Hgt.
    - split.
      + by apply splice_insert_ascending.
      + intros a [->|Ha]%splice_insert_elem_of; [|by apply Hval].
        simpl. by rewrite <-Hid. }
  destruct (items !! pos) as [itemAtPos|] eqn:Hat.
  - destruct (num_eq (id itemAtPos) n) eqn:Heq; simpl.
    + left. apply num_eq_true in Heq as [_ Heq]. split; [|done].
      exists itemAtPos. split; [|done]. by eapply list_elem_of_lookup_2.
    + right. destruct Hnew as [? ?]; [|eauto].
      intros i a Hi Ha.
      assert (num_lt n (id itemAtPos) = true) as Hlt.
      { apply num_lt_total; eauto using list_elem_of_lookup_2. }
      destruct (decide (i = pos)) as [->|Hne]; [by simplify_eq|].
      eapply num_lt_trans; [done|]. eapply Hasc; eauto with lia.
  - right. destruct Hnew as [? ?]; [|eauto].
    intros i a Hi Ha. apply lookup_ge_None_1 in Hat.
    apply lookup_lt_Some in Ha. lia.
Qed.

Lemma insert_invalid item items :
  valid_identity (id item) = false →
  insert item items = (inl (INVALID_ID (id item)), items).
Proof.
  intros Hv. unfold insert. se_unfold. by rewrite assertId_invalid.
Qed.

(** A call that throws leaves the collection as it was. *)
Lemma insert_throws_unchanged item items e :
  outcome (insert item) items = inl e → after (insert item) items = items.
Proof.
  unfold outcome, after, insert, assertId. se_unfold.
  destruct (as_number (id item)) as [n|]; [|done].
  destruct (isNaN n || num_lt n (num 1)); [done|]. simpl.
  destruct (items !! _); [|done].
  by destruct (negb _).
Qed.

Lemma empty_catalog_well_formed : well_formed [].
Proof. split; [by intros i j a b ?|by intros a ?%elem_of_nil]. Qed.

Lemma insert_well_formed item items :
  well_formed items → well_formed (after (insert item) items).
Proof.
  intros Hwf. unfold after.
  destruct (valid_identity (id item)) eqn:Hv.
  - pose proof Hv as (n & Hid & _)%valid_identity_spec.
    destruct (insert_cases item n items Hwf Hid Hv)
      as [[_ ->]|[_ (pos & -> & ?)]]; done.
  - by rewrite insert_invalid.
Qed.

Lemma inserts_well_formed its items :
  well_formed items → well_formed (inserts its items).
Proof.
  revert items. induction its as [|item its IH]; intros items Hwf; [done|].
  apply IH, insert_well_formed, Hwf.
Qed.

Lemma fetchAll_copy items : fetchAll items = items.
Proof.
  unfold fetchAll.
  assert (∀ acc, foldl (λ copyArray item, copyArray ++ [item]) acc items
                 = acc ++ items) as H; [|apply H].
  induction items as [|a items IH]; intros acc; simpl.
  - by rewrite app_nil_r.
  - by rewrite IH, <-app_assoc.
Qed.

Lemma ascending_NoDup items : ascending items → NoDup (id <$> items).
Proof.
  intros Hasc. apply NoDup_alt. intros i j n.
  rewrite !list_lookup_fmap.
  destruct (items !! i) as [a|] eqn:Ha; [|done].
  destruct (items !! j) as [b|] eqn:Hb; [|done].
  intros [= <-] [= Heq].
  destruct (Nat.lt_total i j) as [Hlt|[->|Hlt]]; [|done|].
  - pose proof (Hasc i j a b Ha Hb Hlt) as H.
    by rewrite Heq, num_lt_irrefl in H.
  - pose proof (Hasc j i b a Hb Ha Hlt) as H.
    by rewrite Heq, num_lt_irrefl in H.
Qed.

(** C6: after every sequence of inserts, [fetchAll()] is in strictly
    ascending order of identity and no two entries share an identity;
    inserting an identity that is stored throws DUPLICATE_INSERT_ERROR
    and leaves the collection as it was. *)
Theorem fetchAll_strictly_ascending (its : list (ItemOf value)) :
  let items := inserts its [] in
  ascending (fetchAll items) ∧
  NoDup (id <$> fetchAll items) ∧
  ∀ item a, a ∈ fetchAll items → id item = VNumber (id a) →
    insert item items = (inl (DUPLICATE_INSERT_ERROR (id a)), items).
Proof.
  intros items. rewrite fetchAll_copy.
  pose proof (inserts_well_formed its [] empty_catalog_well_formed) as Hwf.
  fold items in Hwf. split; [apply Hwf|]. split.
  - apply ascending_NoDup, Hwf.
  - intros item a Ha Hid.
    assert (valid_identity (id item) = true) as Hv.
    { rewrite Hid. by apply Hwf. }
    destruct (insert_cases item (id a) items Hwf Hid Hv)
      as [[_ ->]|[Hnew _]]; [done|].
    by destruct (Hnew a Ha).
Qed.

Lemma fetchAll_strictly_ascending_witness :
  let its := [mkItem (VNumber (num 5)) []; mkItem (VNumber (num 3)) [];
              mkItem (VNumber (num 5)) []; mkItem (VString "7") [];
              mkItem (VNumber (num 4)) []] in
  insert (mkItem (VNumber (num 3)) [("name", VString "again")])
         (inserts its []) =
    (inl (DUPLICATE_INSERT_ERROR (num 3)), inserts its []).
Proof.
  intros its.
  apply (proj2 (proj2 (fetchAll_strictly_ascending its))
           (mkItem (VNumber (num 3)) [("name", VString "again")])
           (mkItem (num 3) [])).
  - apply list_elem_of_lookup. exists 0. vm_compute. reflexivity.
  - reflexivity.
Defined.

(** C4, as the claim states it, fails: the identity 3/2 is no integer,
    yet [insert] does not throw INVALID_ID and stores the item. *)
Lemma fractional_identity_accepted :
  let id := VNumber (Finite (Q2Qc (3 # 2))) in
  spec_valid_identity id = false ∧
  insert (mkItem id []) [] = (inr tt, [mkItem (Finite (Q2Qc (3 # 2))) []]).
Proof. split; reflexivity. Qed.

(** C4, amended: in [insert], [update], [findById] and [remove] the
    identity is valid exactly when it is a number, not NaN and at least 1,
    integer or not; with any other value the call throws INVALID_ID
    before anything else and the collection is unchanged, and with a
    valid one it does not throw INVALID_ID. *)
Theorem identity_validation (items : list Item) (item : ItemOf value) :
  let v := id item in
  (valid_identity v = true ↔
     ∃ n, v = VNumber n ∧ isNaN n = false ∧ num_le (num 1) n = true) ∧
  if valid_identity v then
    is_INVALID_ID (outcome (insert item) items) = false ∧
    is_INVALID_ID (outcome (update item) items) = false ∧
    is_INVALID_ID (outcome (findById v) items) = false ∧
    is_INVALID_ID (outcome (remove v) items) = false
  else
    insert item items = (inl (INVALID_ID v), items) ∧
    update item items = (inl (INVALID_ID v), items) ∧
    findById v items = (inl (INVALID_ID v), items) ∧
    remove v items = (inl (INVALID_ID v), items).
Proof.
  intros v. split.
  { unfold valid_identity. destruct v as [| | |n| |]; simpl;
      try (split; [done|by intros (? & ? & _)]).
    rewrite andb_true_iff, negb_true_iff. split.
    - intros [? ?]. eauto.
    - by intros (? & [= <-] & ? & ?). }
  destruct (valid_identity v) eqn:Hv.
  - pose proof Hv as (n & Hid & _)%valid_identity_spec.
    unfold outcome, insert, update, findById, remove, findIndex_id,
      findIndex_item.
    se_unfold. fold v. rewrite !(assertId_valid v n) by done. cbn zeta.
    repeat split.
    + destruct (items !! _); [|done]. by destruct (negb _).
    + by destruct (_ <? _)%Z.
    + by destruct (_ <? _)%Z.
    + by destruct (_ <? _)%Z.
  - unfold insert, update, findById, remove. se_unfold. fold v.
    by rewrite !assertId_invalid.
Qed.

End CatalogTheory.

(** ** InMemoryConfigManager *)
Module ConfigManagerTheory.
Import ConfigManager NumberFacts.
Local Open Scope nat_scope.

Ltac run_method :=
  unfold add, update, remove, activate, get, structuredClone, set_status,
    configs_set, fakeConfigs_set, configs_delete, fakeConfigs_delete,
    set_activeConfig, fakeDeepFreeze in *;
  se_unfold.

(** *** Validation *)
Lemma assertVersion_valid n m :
  valid_version n = true → assertVersion (VNumber n) m = (inr n, m).
Proof.
  unfold valid_version, assertVersion; simpl.
  rewrite andb_true_iff, !negb_true_iff. by intros [-> ->].
Qed.

Lemma assertVersion_invalid v m :
  (∀ n, v = VNumber n → valid_version n = false) →
  assertVersion v m = (inl (INVALID_VERSION v), m).
Proof.
  intros H. unfold assertVersion.
  destruct v as [| | |n| |]; simpl; try done.
  specialize (H n eq_refl). unfold valid_version in H.
  destruct (isNaN n); [done|]. by destruct (num_lt n (num 0)).
Qed.

Lemma assertStatus_valid n m :
  valid_status n = true → assertStatus (VNumber n) m = (inr n, m).
Proof.
  unfold valid_status, assertStatus; simpl. intros H.
  assert (isNaN n = false) as ->.
  { apply orb_true_iff in H as [[? _]%num_eq_true|[? _]%num_eq_true]; done. }
  rewrite <-negb_orb, H. done.
Qed.

Lemma valid_status_cases n :
  valid_status n = true ↔ n = status_code INACTIVE ∨ n = status_code ACTIVE.
Proof.
  unfold valid_status. rewrite orb_true_iff, !num_eq_true. split.
  - intros [[_ ->]|[_ ->]]; auto.
  - intros [-> | ->]; auto.
Qed.

(** *** [activate] *)

Lemma activate_eq n m :
  valid_version n = true → activate (VNumber n) m = activated n m.
Proof.
  intros Hn. unfold activated. run_method.
  rewrite assertVersion_valid by done.
  destruct (configs m !! n) as [config|]; [|done].
  destruct (activeVersion m) as [a|]; [destruct (configs m !! a)|];
    by case_bool_decide.
Qed.

(** *** The shape of the fields *)
Lemma structured_inj m v1 v2 r :
  structured m → configs m !! v1 = Some r → configs m !! v2 = Some r →
  v1 = v2.
Proof.
  intros Hs H1 H2. destruct (st_refs m Hs v1 r H1) as [_ <-].
  by destruct (st_refs m Hs v2 r H2).
Qed.

Lemma structured_fake m v :
  structured m → fakeConfigs m !! v = Proxy <$> configs m !! v.
Proof. intros Hs. by rewrite (st_fake m Hs), lookup_fmap. Qed.

Lemma version_alter_status s r (objs : list Config) r' :
  version (alter (with_status s) r objs !!! r') = version (objs !!! r').
Proof.
  rewrite list_lookup_total_alter.
  by case_decide as H; [destruct H as [-> _]|].
Qed.

(** Writing statuses keeps the shape. *)
Lemma structured_objects m objs p :
  structured m → length objs = length (objects m) →
  (∀ r, version (objs !!! r) = version (objects m !!! r)) →
  (∀ q, p = Some q → target q < length (objects m)) →
  structured (Manager objs (configs m) (fakeConfigs m) p).
Proof.
  intros Hs Hlen Hver Hp. split; simpl.
  - intros v r Hr. destruct (st_refs m Hs v r Hr) as [? ?].
    unfold deref; simpl. rewrite Hlen, Hver. done.
  - apply Hs.
  - intros q Hq. rewrite Hlen. by apply Hp.
Qed.

Lemma activated_swap n m config :
  structured m → configs m !! n = Some config →
  let previous :=
    match activeVersion m with
    | Some a => configs m !! a
    | None => None
    end in
  previous ≠ Some config →
  activated n m =
    (inr tt,
     Manager
       (alter (with_status (status_code ACTIVE)) config
          match previous with
          | Some r => alter (with_status (status_code INACTIVE)) r (objects m)
          | None => objects m
          end)
       (configs m) (fakeConfigs m) (Some (Proxy config))).
Proof.
  intros Hs Hn previous Hne. unfold activated. rewrite Hn. fold previous.
  rewrite bool_decide_eq_false_2 by done. cbn zeta.
  do 2 f_equal. rewrite version_alter_status.
  destruct (st_refs m Hs n config Hn) as [_ Hv]. unfold deref in Hv.
  replace (version (_ !!! config)) with n.
  { by rewrite structured_fake, Hn. }
  destruct previous; [by rewrite version_alter_status|done].
Qed.

(** [activate] on a stored version restores the invariant even when the
    record it activates is ACTIVE before the call, as it is when [add]
    calls it. *)
Lemma activated_well_formed n m config :
  structured m → active_stored m →
  configs m !! n = Some config →
  actives_among m (λ v, v = n ∨ activeVersion m = Some v) →
  well_formed (activated n m).2.
Proof.
  intros Hs Hstored Hn Hact.
  destruct (st_refs m Hs n config Hn) as [Hlt Hver]. unfold deref in Hver.
  set (previous := match activeVersion m with
                   | Some a => configs m !! a
                   | None => None
                   end).
  destruct (decide (previous = Some config)) as [Heq|Hne].
  { unfold activated. rewrite Hn. fold previous.
    rewrite bool_decide_eq_true_2 by done. simpl.
    assert (activeVersion m = Some n) as Hav.
    { subst previous. destruct (activeVersion m) as [a|]; [|done].
      f_equal. eapply structured_inj; eauto. }
    split; [done|]. split; [|done].
    intros v r Hr Hra. destruct (Hact v r Hr Hra) as [->|?]; done. }
  rewrite (activated_swap n m config Hs Hn Hne). fold previous. simpl.
  set (objs := alter _ config _).
  assert (length objs = length (objects m)) as Hlen.
  { subst objs. rewrite length_alter. destruct previous; [|done].
    by rewrite length_alter. }
  assert (∀ r, version (objs !!! r) = version (objects m !!! r)) as Hvers.
  { intros r. subst objs. rewrite version_alter_status.
    destruct previous; [|done]. by rewrite version_alter_status. }
  assert (isActive (objs !!! config) = true) as Hnew.
  { subst objs. rewrite list_lookup_total_alter_eq; [done|].
    destruct previous; [|done]. by rewrite length_alter. }
  assert (∀ r, r ≠ config → previous = Some r →
               isActive (objs !!! r) = false) as Hold.
  { intros r Hr Hp. subst objs. rewrite list_lookup_total_alter_ne by done.
    rewrite Hp. rewrite list_lookup_total_alter_eq; [done|].
    destruct (activeVersion m) as [a|] eqn:Ha; [|done].
    by destruct (st_refs m Hs a r Hp). }
  assert (∀ r, r ≠ config → previous ≠ Some r →
               objs !!! r = objects m !!! r) as Hother.
  { intros r Hr Hp. subst objs. rewrite list_lookup_total_alter_ne by done.
    destruct previous as [r'|]; [|done].
    rewrite list_lookup_total_alter_ne; [done|]. by intros ->. }
  assert (activeVersion
            (Manager objs (configs m) (fakeConfigs m) (Some (Proxy config)))
          = Some n) as Hav.
  { unfold activeVersion, view, deref. simpl. by rewrite Hvers, Hver. }
  split; [|split].
  - apply structured_objects; try done. by intros q [= <-].
  - intros v r Hr Hra. rewrite Hav. f_equal. unfold deref in Hra.
    simpl in Hra.
    destruct (decide (r = config)) as [->|Hrc].
    { eapply structured_inj; eauto. }
    destruct (decide (previous = Some r)) as [Hp|Hp].
    { by rewrite Hold in Hra. }
    rewrite Hother in Hra by done.
    destruct (Hact v r Hr Hra) as [Hv|Hv].
    + congruence.
    + subst previous. rewrite Hv in Hp. done.
  - intros a. rewrite Hav. intros [= <-]. exists config. done.
Qed.

(** *** A new object under a key *)
Lemma allocated_deref_old v c m r :
  r < length (objects m) → deref (allocated v c m) r = deref m r.
Proof. intros. unfold deref; simpl. by rewrite lookup_total_app_l. Qed.

Lemma allocated_deref_new v c m :
  deref (allocated v c m) (length (objects m)) = c.
Proof. unfold deref; simpl. by rewrite list_lookup_total_middle. Qed.

Lemma allocated_activeVersion v c m :
  structured m → activeVersion (allocated v c m) = activeVersion m.
Proof.
  intros Hs. unfold activeVersion, view. simpl.
  destruct (activeConfig m) as [p|] eqn:Hp; [|done]. simpl.
  by rewrite allocated_deref_old by (by apply Hs).
Qed.

Lemma allocated_structured v c m :
  structured m → version c = v → structured (allocated v c m).
Proof.
  intros Hs Hv. split; simpl.
  - intros v' r. rewrite length_app. simpl.
    destruct (decide (v = v')) as [<-|Hne].
    + rewrite lookup_insert_eq. intros [= <-].
      fold (deref (allocated v c m) (length (objects m))).
      rewrite allocated_deref_new. split; [lia|done].
    + rewrite lookup_insert_ne by done. intros Hr.
      destruct (st_refs m Hs v' r Hr) as [? ?].
      fold (deref (allocated v c m) r).
      rewrite allocated_deref_old by done. split; [lia|done].
  - by rewrite (st_fake m Hs), fmap_insert.
  - intros p Hp. rewrite length_app. simpl.
    pose proof (st_active m Hs p Hp). lia.
Qed.

(** Replacing or adding a record keeps the invariant when the new record
    is ACTIVE only if it replaces the ACTIVE one. *)
Lemma allocated_well_formed v c m :
  well_formed m → version c = v →
  (isActive c = true →
     ∃ r, configs m !! v = Some r ∧ isActive (deref m r) = true) →
  (∀ r, configs m !! v = Some r → isActive (deref m r) = true →
     isActive c = true) →
  well_formed (allocated v c m).
Proof.
  intros (Hs & Hact & Hst) Hv Hnew Hold.
  split; [by apply allocated_structured|]. split.
  - intros v' r. rewrite allocated_activeVersion by done. simpl.
    destruct (decide (v = v')) as [<-|Hne].
    + rewrite lookup_insert_eq. intros [= <-].
      rewrite allocated_deref_new. intros Hc.
      destruct (Hnew Hc) as (r & Hr & Hra). by eapply Hact.
    + rewrite lookup_insert_ne by done. intros Hr.
      rewrite allocated_deref_old by (by eapply Hs). by eapply Hact.
  - intros a. rewrite allocated_activeVersion by done. intros Ha.
    destruct (Hst a Ha) as (r & Hr & Hra). simpl.
    destruct (decide (v = a)) as [<-|Hne].
    + rewrite lookup_insert_eq. eexists. split; [done|].
      rewrite allocated_deref_new. eauto.
    + rewrite lookup_insert_ne by done. exists r. split; [done|].
      by rewrite allocated_deref_old by (by eapply Hs).
Qed.

(** *** What each method does *)
Lemma assertVersion_cases v m :
  assertVersion v m = (inl (INVALID_VERSION v), m) ∨
  ∃ n, v = VNumber n ∧ valid_version n = true ∧
       assertVersion v m = (inr n, m).
Proof.
  destruct v as [| | |n| |]; try by left.
  destruct (valid_version n) eqn:Hn.
  - right. exists n. by rewrite assertVersion_valid.
  - left. apply assertVersion_invalid. by intros ? [= <-].
Qed.

Lemma assertStatus_cases v m :
  assertStatus v m = (inl (INVALID_STATUS v), m) ∨
  ∃ n, v = VNumber n ∧ valid_status n = true ∧
       assertStatus v m = (inr n, m).
Proof.
  destruct v as [| | |n| |]; try by left.
  destruct (valid_status n) eqn:Hn.
  - right. exists n. by rewrite assertStatus_valid.
  - left. unfold assertStatus, valid_status in *. cbn [as_number].
    destruct (isNaN n); [done|].
    apply orb_false_iff in Hn as [-> ->]. done.
Qed.

Lemma add_eq config v s m :
  version config = VNumber v → status config = VNumber s →
  valid_version v = true → valid_status s = true →
  add config m =
    if num_eq s (status_code ACTIVE) && bool_decide (is_Some (activeConfig m))
    then (inl ACTIVE_OVERWRITE, m)
    else if bool_decide (is_Some (configs m !! v))
    then (inl (DUPLICATE_VERSION v), m)
    else
      let m1 := allocated v (mkConfig v s (extra config)) m in
      if num_eq s (status_code ACTIVE) then activated v m1 else (inr tt, m1).
Proof.
  intros Hv Hs Hvv Hvs. unfold add. se_unfold. rewrite Hv, Hs.
  rewrite assertVersion_valid, assertStatus_valid by done.
  destruct (num_eq s _ && _); [done|].
  destruct (bool_decide (is_Some (configs m !! v))); [done|].
  destruct (num_eq s (status_code ACTIVE)); [|done].
  rewrite <-activate_eq by done. done.
Qed.

Lemma update_eq config v s m :
  version config = VNumber v → status config = VNumber s →
  valid_version v = true → valid_status s = true →
  update config m =
    match configs m !! v with
    | None => (inr tt, m)
    | Some r =>
        if num_eq s (status (deref m r))
        then (inr tt, allocated v (mkConfig v s (extra config)) m)
        else (inl (IMMUTABLE_FIELD_UPDATE "status"), m)
    end.
Proof.
  intros Hv Hs Hvv Hvs. unfold update. se_unfold. rewrite Hv, Hs.
  rewrite assertVersion_valid, assertStatus_valid by done.
  destruct (configs m !! v) as [r|]; [|done].
  by destruct (num_eq s (status (deref m r))).
Qed.

Lemma remove_eq v m :
  valid_version v = true →
  remove (VNumber v) m =
    match configs m !! v with
    | None => (inr tt, m)
    | Some r =>
        if isActive (deref m r) then (inl (REMOVING_ACTIVE_CONFIG v), m)
        else (inr tt, Manager (objects m) (delete v (configs m))
                        (delete v (fakeConfigs m)) (activeConfig m))
    end.
Proof.
  intros Hvv. unfold remove. se_unfold.
  rewrite assertVersion_valid by done.
  destruct (configs m !! v) as [r|]; [|done].
  by destruct (isActive (deref m r)).
Qed.

(** *** The invariant *)
Lemma empty_manager_well_formed : well_formed empty.
Proof.
  split; [|split].
  - split; simpl; [|by rewrite fmap_empty|]; done.
  - by intros v r ?.
  - by intros a ?.
Qed.

Lemma activate_well_formed version m :
  well_formed m → well_formed (after (activate version) m).
Proof.
  intros Hwf. unfold after.
  destruct (assertVersion_cases version m) as [H|(n & -> & Hn & H)].
  { unfold activate. se_unfold. by rewrite H. }
  rewrite activate_eq by done.
  destruct (configs m !! n) as [config|] eqn:Hc.
  - destruct Hwf as (Hs & Hact & Hst).
    eapply activated_well_formed; eauto.
    intros v r Hr Hra. right. by eapply Hact.
  - unfold activated. by rewrite Hc.
Qed.

Lemma add_well_formed config m :
  well_formed m → well_formed (after (add config) m).
Proof.
  intros Hwf. unfold after.
  destruct (assertVersion_cases (version config) m)
    as [H|(v & Hv & Hvv & H)].
  { unfold add. se_unfold. by rewrite H. }
  destruct (assertStatus_cases (status config) m)
    as [H'|(s & Hs & Hvs & H')].
  { unfold add. se_unfold. by rewrite H, H'. }
  rewrite (add_eq config v s) by done.
  destruct (num_eq s (status_code ACTIVE)) eqn:Hsa; simpl.
  - case_bool_decide as Hac; [done|].
    case_bool_decide as Hcv; [done|].
    apply eq_None_not_Some in Hac, Hcv.
    destruct Hwf as (Hst & Hact & Hsto).
    assert (activeVersion m = None) as Hav
      by (unfold activeVersion; by rewrite Hac).
    eapply activated_well_formed.
    + by apply allocated_structured.
    + intros a. rewrite allocated_activeVersion, Hav by done. done.
    + simpl. apply lookup_insert_eq.
    + intros v' r. simpl.
      destruct (decide (v = v')) as [<-|Hne]; [by left|].
      rewrite lookup_insert_ne by done. intros Hr.
      rewrite allocated_deref_old by (by eapply Hst). intros Hra.
      specialize (Hact v' r Hr Hra). cbv beta in Hact.
      by rewrite Hav in Hact.
  - case_bool_decide as Hcv; [done|]. apply eq_None_not_Some in Hcv.
    simpl. apply allocated_well_formed; try done.
    + unfold isActive; cbn [status]. by rewrite Hsa.
    + intros r Hr. by rewrite Hcv in Hr.
Qed.

Lemma update_well_formed config m :
  well_formed m → well_formed (after (update config) m).
Proof.
  intros Hwf. unfold after.
  destruct (assertVersion_cases (version config) m)
    as [H|(v & Hv & Hvv & H)].
  { unfold update. se_unfold. by rewrite H. }
  destruct (assertStatus_cases (status config) m)
    as [H'|(s & Hs & Hvs & H')].
  { unfold update. se_unfold. by rewrite H, H'. }
  rewrite (update_eq config v s) by done.
  destruct (configs m !! v) as [r|] eqn:Hr; [|done].
  destruct (num_eq s (status (deref m r))) eqn:Heq; [|done]. simpl.
  apply num_eq_true in Heq as [_ Heq].
  apply allocated_well_formed; try done.
  - unfold isActive at 1. simpl. rewrite Heq. eauto.
  - intros r' Hr'. rewrite Hr in Hr'. injection Hr' as <-.
    unfold isActive; cbn [status]. by rewrite Heq.
Qed.

Lemma remove_well_formed version m :
  well_formed m → well_formed (after (remove version) m).
Proof.
  intros Hwf. unfold after.
  destruct (assertVersion_cases version m) as [H|(v & -> & Hvv & H)].
  { unfold remove. se_unfold. by rewrite H. }
  rewrite remove_eq by done.
  destruct (configs m !! v) as [r|] eqn:Hr; [|done].
  destruct (isActive (deref m r)) eqn:Hra; [done|]. simpl.
  destruct Hwf as (Hst & Hact & Hsto).
  split; [|split].
  - split; simpl.
    + intros v' r' [_ Hr']%lookup_delete_Some. by apply Hst.
    + by rewrite (st_fake m Hst), fmap_delete.
    + apply Hst.
  - intros v' r'. simpl. intros [_ Hr']%lookup_delete_Some. by apply Hact.
  - intros a Ha. destruct (Hsto a Ha) as (r' & Hr' & Hra').
    exists r'. split; [|done]. simpl. apply lookup_delete_Some.
    split; [|done]. intros <-. congruence.
Qed.

Lemma perform_well_formed c m :
  well_formed m → well_formed (after (perform c) m).
Proof.
  destruct c; simpl;
    auto using add_well_formed, update_well_formed, remove_well_formed,
      activate_well_formed.
Qed.

Lemma run_well_formed cs m : well_formed m → well_formed (run cs m).
Proof.
  revert m. induction cs as [|c cs IH]; intros m Hwf; [done|].
  apply IH, perform_well_formed, Hwf.
Qed.

Lemma constructor_well_formed init m :
  constructor init = inr m → well_formed m.
Proof.
  destruct init as [cs|]; simpl; [|intros [= <-]; apply empty_manager_well_formed].
  assert (∀ acc, (∀ m0, acc = inr m0 → well_formed m0) →
            foldl (λ acc config,
               match acc with
               | inl e => inl e
               | inr m => match add config m with
                          | (inl e, _) => inl e
                          | (inr _, m') => inr m'
                          end
               end) acc cs = inr m → well_formed m) as H.
  { induction cs as [|c cs IH]; intros acc Hacc; simpl; [by apply Hacc|].
    apply IH. intros m0. destruct acc as [e|m1]; [done|].
    pose proof (add_well_formed c m1 (Hacc m1 eq_refl)) as Hwf.
    unfold after in Hwf. destruct (add c m1) as [[e|[]] m2]; [done|].
    by intros [= <-]. }
  apply H. intros m0 [= <-]. apply empty_manager_well_formed.
Qed.

Lemma reachable_well_formed m : reachable m → well_formed m.
Proof.
  intros (init & cs & m0 & Hinit & ->).
  by eapply run_well_formed, constructor_well_formed.
Qed.

Lemma structured_snapshot m v :
  structured m → snapshot m v = stored m v.
Proof.
  intros Hs. unfold snapshot, stored. rewrite structured_fake by done.
  by destruct (configs m !! v).
Qed.

(** *** At most one ACTIVE record *)

(** Two stored records that are both ACTIVE are one record. *)
Lemma well_formed_one_active m v1 v2 c1 c2 :
  well_formed m →
  stored m v1 = Some c1 → stored m v2 = Some c2 →
  isActive c1 = true → isActive c2 = true → v1 = v2.
Proof.
  intros (Hs & Hact & _). unfold stored.
  destruct (configs m !! v1) as [r1|] eqn:H1; [|done].
  destruct (configs m !! v2) as [r2|] eqn:H2; [|done].
  intros [= <-] [= <-] Ha1 Ha2.
  pose proof (Hact v1 r1 H1 Ha1) as E1.
  pose proof (Hact v2 r2 H2 Ha2) as E2. simpl in *. congruence.
Qed.

Lemma well_formed_active_count m : well_formed m → active_count m ≤ 1.
Proof.
  intros (Hs & Hact & _). unfold active_count.
  remember (filter (λ kv : number * nat, isActive (deref m kv.2) = true)
              (map_to_list (configs m))) as l eqn:Hl.
  assert (∀ k r, (k, r) ∈ l →
            configs m !! k = Some r ∧ isActive (deref m r) = true) as Hin.
  { subst l. by intros k r [? ?%elem_of_map_to_list]%list_elem_of_filter. }
  assert (NoDup l) as Hnd
    by (subst l; apply NoDup_filter, NoDup_map_to_list).
  clear Hl. destruct l as [|[k r] [|[k' r'] l]]; simpl; [lia..|exfalso].
  destruct (Hin k r) as [Hk Hka]; [by constructor|].
  destruct (Hin k' r') as [Hk' Hka']; [by do 2 constructor|].
  pose proof (Hact k r Hk Hka) as E1.
  pose proof (Hact k' r' Hk' Hka') as E2. simpl in *.
  assert (k' = k) as -> by congruence.
  assert (r' = r) as -> by congruence.
  apply NoDup_cons in Hnd as [Hnd _]. apply Hnd. by constructor.
Qed.

(** C1: whatever the constructor was given and whatever calls of [add],
    [activate], [remove] and [update] followed, each run to its return or
    its throw, at most one stored record has status ACTIVE, in the
    canonical store and in the frozen one. *)
Theorem at_most_one_active init m0 (cs : list call) :
  constructor init = inr m0 →
  let m := run cs m0 in
  active_count m ≤ 1 ∧
  (∀ v1 v2 c1 c2, stored m v1 = Some c1 → stored m v2 = Some c2 →
     isActive c1 = true → isActive c2 = true → v1 = v2) ∧
  (∀ v1 v2 c1 c2, snapshot m v1 = Some c1 → snapshot m v2 = Some c2 →
     isActive c1 = true → isActive c2 = true → v1 = v2).
Proof.
  intros Hinit m.
  assert (well_formed m) as Hwf
    by (by eapply run_well_formed, constructor_well_formed).
  split; [by apply well_formed_active_count|]. split.
  - intros v1 v2 c1 c2. by apply well_formed_one_active.
  - intros v1 v2 c1 c2. rewrite !structured_snapshot by apply Hwf.
    by apply well_formed_one_active.
Qed.

Lemma example_constructed :
  constructor (Some example_configs) = inr example_manager.
Proof. vm_compute. reflexivity. Qed.

Example example_swap :
  let m := run [Activate (VNumber (num 2))] example_manager in
  outcome (get VUndefined) m = inr (Some (Proxy 1)) ∧
  snapshot m (num 2) = Some (mkConfig (num 2) (status_code ACTIVE) []) ∧
  snapshot m (num 1) = Some (mkConfig (num 1) (status_code INACTIVE) []) ∧
  active_count m = 1.
Proof. vm_compute. done. Qed.

Lemma at_most_one_active_witness :
  let cs := [Activate (VNumber (num 2));
             Add (mkConfig (VNumber (num 3)) (VNumber (status_code ACTIVE)) []);
             Update (mkConfig (VNumber (num 2)) (VNumber (status_code ACTIVE))
                       [("name", VString "two")]);
             Remove (VNumber (num 2));
             Activate (VNumber (num 1))] in
  active_count (run cs example_manager) ≤ 1.
Proof.
  intros cs.
  apply (at_most_one_active (Some example_configs) example_manager cs).
  vm_compute. reflexivity.
Defined.

(** *** [get] *)

(** With a version that is valid and not zero, [get] answers the frozen
    snapshot stored under that version, or nothing. *)
Lemma get_version n m :
  valid_version n = true → n ≠ num 0 →
  get (VNumber n) m = (inr (fakeConfigs m !! n), m).
Proof.
  intros Hn H0. unfold get. se_unfold.
  assert (ToBoolean (VNumber n) = true) as ->.
  { unfold valid_version in Hn. apply andb_true_iff in Hn as [Hn _].
    simpl. rewrite Hn. by rewrite bool_decide_eq_false_2. }
  by rewrite assertVersion_valid.
Qed.

(** Version 0 is falsy: [get(0)] is [get()]. *)
Lemma get_zero m : get (VNumber (num 0)) m = get VUndefined m.
Proof. done. Qed.

(** C2, at the failing input: after [add({version: 0, status: INACTIVE})]
    a frozen snapshot is stored under the valid version 0, and [get(0)]
    answers [undefined]: the test [if (version)] takes 0 for a missing
    argument. *)
Theorem get_zero_misses_stored :
  let m := run [Add (mkConfig (VNumber (num 0))
                              (VNumber (status_code INACTIVE)) [])] empty in
  valid_version (num 0) = true ∧
  fakeConfigs m !! num 0 = Some (Proxy 0) ∧
  snapshot m (num 0) = Some (mkConfig (num 0) (status_code INACTIVE) []) ∧
  get (VNumber (num 0)) m = (inr None, m).
Proof. vm_compute. done. Qed.

(** *** [activate] *)

(** C5: on a manager a program can have and for a valid version [n],
    [activate(n)] throws NO_CONFIG and changes nothing when no record has
    version [n]; it changes nothing when [n] is the active version;
    otherwise it returns with the record of version [n] ACTIVE, the record
    of the previously active version, if there was one, INACTIVE, every
    other record as it was, and the active pointer set to the frozen
    snapshot stored under [n], which shows those same records. *)
Theorem activate_spec m n :
  reachable m → valid_version n = true →
  (configs m !! n = None →
     activate (VNumber n) m = (inl (NO_CONFIG n), m)) ∧
  (activeVersion m = Some n → activate (VNumber n) m = (inr tt, m)) ∧
  (∀ c, stored m n = Some c → activeVersion m ≠ Some n →
     ∃ m', activate (VNumber n) m = (inr tt, m') ∧
       configs m' = configs m ∧ fakeConfigs m' = fakeConfigs m ∧
       activeConfig m' = fakeConfigs m !! n ∧
       is_Some (activeConfig m') ∧
       activeVersion m' = Some n ∧
       stored m' n = Some (with_status (status_code ACTIVE) c) ∧
       (∀ a, activeVersion m = Some a →
          stored m' a = with_status (status_code INACTIVE) <$> stored m a) ∧
       (∀ v, v ≠ n → activeVersion m ≠ Some v → stored m' v = stored m v) ∧
       (∀ v, snapshot m' v = stored m' v)).
Proof.
  intros Hwf%reachable_well_formed Hn.
  pose proof Hwf as (Hs & Hact & Hsto).
  rewrite activate_eq by done. split; [|split].
  - intros Hc. unfold activated. by rewrite Hc.
  - intros Ha. destruct (Hsto n Ha) as (r & Hr & _).
    unfold activated. rewrite Hr, Ha, Hr.
    by rewrite bool_decide_eq_true_2.
  - intros c Hc Hna. unfold stored in Hc.
    destruct (configs m !! n) as [r|] eqn:Hr; [|done].
    injection Hc as <-.
    set (previous := match activeVersion m with
                     | Some a => configs m !! a
                     | None => None
                     end).
    assert (previous ≠ Some r) as Hne.
    { subst previous. intros Hp.
      destruct (activeVersion m) as [a|]; [|done].
      apply Hna. f_equal. by eapply structured_inj. }
    pose proof (activated_well_formed n m r Hs Hsto Hr) as Hwf'.
    rewrite (activated_swap n m r Hs Hr Hne) in Hwf' |- *.
    fold previous in Hwf' |- *. simpl in Hwf'.
    eexists. split; [done|].
    destruct (st_refs m Hs n r Hr) as [Hlt Hver]. unfold deref in Hver.
    assert (∀ r', previous = Some r' → r' < length (objects m)) as Hplt.
    { subst previous. intros r' Hr'.
      destruct (activeVersion m) as [a|]; [|done].
      by destruct (st_refs m Hs a r' Hr'). }
    destruct Hwf' as (Hs' & _ & _).
    { intros v r' Hr' Hra. right. by eapply Hact. }
    simpl. split_and!.
    + done.
    + done.
    + by rewrite structured_fake, Hr.
    + done.
    + unfold activeVersion, view, deref. simpl.
      rewrite version_alter_status.
      destruct previous; [by rewrite version_alter_status, Hver|].
      by rewrite Hver.
    + unfold stored, deref. simpl. rewrite Hr. simpl. f_equal.
      destruct previous as [r'|] eqn:Hp.
      * rewrite list_lookup_total_alter_eq by (by rewrite length_alter).
        rewrite list_lookup_total_alter_ne; [done|]. by intros ->.
      * by rewrite list_lookup_total_alter_eq.
    + intros a Ha. destruct (Hsto a Ha) as (r' & Hr' & _).
      unfold stored, deref. simpl. rewrite Hr'. simpl. f_equal.
      assert (previous = Some r') as Hp by (subst previous; by rewrite Ha).
      rewrite Hp. rewrite list_lookup_total_alter_ne by congruence.
      rewrite list_lookup_total_alter_eq; [done|]. by apply Hplt.
    + intros v Hvn Hva. unfold stored, deref. simpl.
      destruct (configs m !! v) as [r'|] eqn:Hr'; [|done]. simpl. f_equal.
      rewrite list_lookup_total_alter_ne.
      2:{ intros <-. apply Hvn. by eapply structured_inj. }
      destruct previous as [r''|] eqn:Hp; [|done].
      rewrite list_lookup_total_alter_ne; [done|]. intros ->.
      subst previous. destruct (activeVersion m) as [a|]; [|done].
      apply Hva. f_equal. by eapply structured_inj.
    + intros v. by apply structured_snapshot.
Qed.

Lemma example_reachable : reachable example_manager.
Proof.
  exists (Some example_configs), [], example_manager.
  split; [apply example_constructed|done].
Qed.

Lemma activate_spec_witness :
  activate (VNumber (num 3)) example_manager =
    (inl (NO_CONFIG (num 3)), example_manager) ∧
  activate (VNumber (num 1)) example_manager = (inr tt, example_manager) ∧
  ∃ m', activate (VNumber (num 2)) example_manager = (inr tt, m') ∧
        activeVersion m' = Some (num 2) ∧
        stored m' (num 1) =
          with_status (status_code INACTIVE) <$> stored example_manager (num 1).
Proof.
  split; [|split].
  - apply (activate_spec example_manager (num 3) example_reachable);
      reflexivity.
  - apply (activate_spec example_manager (num 1) example_reachable);
      vm_compute; reflexivity.
  - destruct (activate_spec example_manager (num 2) example_reachable eq_refl)
      as (_ & _ & H).
    destruct (H (mkConfig (num 2) (status_code INACTIVE) []))
      as (m' & Hm' & _ & _ & _ & _ & Hav & _ & Hprev & _).
    + vm_compute. reflexivity.
    + vm_compute. discriminate.
    + exists m'. split; [done|]. split; [done|].
      apply Hprev. vm_compute. reflexivity.
Defined.

(** *** [remove] *)

(** C9: for a valid version [n], [remove(n)] throws
    REMOVING_ACTIVE_CONFIG and changes nothing when the record stored
    under [n] is ACTIVE; it returns and changes nothing when no record is
    stored under [n]; otherwise it deletes the record from the canonical
    and from the frozen map, so that the size is one less, and touches
    nothing else. *)
Theorem remove_spec m n :
  valid_version n = true →
  (∀ c, stored m n = Some c → isActive c = true →
     remove (VNumber n) m = (inl (REMOVING_ACTIVE_CONFIG n), m)) ∧
  (stored m n = None → remove (VNumber n) m = (inr tt, m)) ∧
  (∀ c, stored m n = Some c → isActive c = false →
     ∃ m', remove (VNumber n) m = (inr tt, m') ∧
       configs m' = delete n (configs m) ∧
       fakeConfigs m' = delete n (fakeConfigs m) ∧
       configs m' !! n = None ∧ fakeConfigs m' !! n = None ∧
       S (size m') = size m ∧
       objects m' = objects m ∧ activeConfig m' = activeConfig m).
Proof.
  intros Hn. rewrite remove_eq by done. unfold stored.
  destruct (configs m !! n) as [r|] eqn:Hr; simpl.
  - split; [|split]; [|done|]; intros c [= <-] Hc; rewrite Hc; [done|].
    eexists. split; [done|]. simpl. split_and!; try done.
    + apply lookup_delete_eq.
    + apply lookup_delete_eq.
    + unfold size; cbn [configs]. rewrite map_size_delete, Hr. simpl.
      assert (base.size (configs m) ≠ 0); [|lia].
      intros Hem%map_size_empty_iff. by rewrite Hem, lookup_empty in Hr.
  - split; [|split]; done.
Qed.

Lemma remove_spec_witness :
  remove (VNumber (num 1)) example_manager =
    (inl (REMOVING_ACTIVE_CONFIG (num 1)), example_manager) ∧
  remove (VNumber (num 7)) example_manager = (inr tt, example_manager) ∧
  ∃ m', remove (VNumber (num 2)) example_manager = (inr tt, m') ∧
        S (size m') = size example_manager.
Proof.
  split; [|split].
  - apply (proj1 (remove_spec example_manager (num 1) eq_refl)
             (mkConfig (num 1) (status_code ACTIVE) []));
      vm_compute; reflexivity.
  - apply (proj1 (proj2 (remove_spec example_manager (num 7) eq_refl))).
    vm_compute. reflexivity.
  - destruct (remove_spec example_manager (num 2) eq_refl) as (_ & _ & H).
    destruct (H (mkConfig (num 2) (status_code INACTIVE) []))
      as (m' & Hm' & _ & _ & _ & _ & Hsize & _).
    + vm_compute. reflexivity.
    + reflexivity.
    + exists m'. done.
Defined.

(** *** [update] *)

(** What [update] does to the stores, for a valid version and status: it
    changes nothing when no record has the version; it throws
    IMMUTABLE_FIELD_UPDATE and changes nothing when the status differs from
    the stored one; otherwise the stored record and its frozen snapshot
    become the clone of the argument, with the status that was stored, and
    the other records stay. *)
Lemma update_spec config v s m :
  reachable m →
  version config = VNumber v → status config = VNumber s →
  valid_version v = true → valid_status s = true →
  (stored m v = None → update config m = (inr tt, m)) ∧
  (∀ c, stored m v = Some c → s ≠ status c →
     update config m = (inl (IMMUTABLE_FIELD_UPDATE "status"), m)) ∧
  (∀ c, stored m v = Some c → s = status c →
     ∃ m', update config m = (inr tt, m') ∧
       stored m' v = Some (mkConfig v (status c) (extra config)) ∧
       snapshot m' v = Some (mkConfig v (status c) (extra config)) ∧
       (∀ v', v' ≠ v → stored m' v' = stored m v') ∧
       (v ≠ num 0 →
          ∃ p, get (VNumber v) m' = (inr (Some p), m') ∧
               view m' p = mkConfig v (status c) (extra config))).
Proof.
  intros Hwf%reachable_well_formed Hv Hs Hvv Hvs.
  pose proof Hwf as (Hst & _ & _).
  rewrite (update_eq config v s) by done. unfold stored.
  destruct (configs m !! v) as [r|] eqn:Hr; simpl; [|done].
  assert (isNaN s = false) as HsNaN.
  { apply valid_status_cases in Hvs as [-> | ->]; done. }
  split; [done|]. split.
  - intros c [= <-] Hne.
    destruct (num_eq s (status (deref m r))) eqn:Heq; [|done].
    by apply num_eq_true in Heq as [_ ?].
  - intros c [= <-] ->. rewrite num_eq_refl by done.
    eexists. split; [done|].
    set (c' := mkConfig v (status (deref m r)) (extra config)).
    assert (stored (allocated v c' m) v = Some c') as Hnew.
    { unfold stored. simpl. rewrite lookup_insert_eq. simpl.
      by rewrite allocated_deref_new. }
    assert (structured (allocated v c' m)) as Hst'
      by (by apply allocated_structured).
    split_and!.
    + done.
    + by rewrite structured_snapshot.
    + intros v' Hne. unfold stored. simpl.
      rewrite lookup_insert_ne by done.
      destruct (configs m !! v') as [r'|] eqn:Hr'; [|done]. simpl.
      by rewrite allocated_deref_old by (by eapply Hst).
    + intros H0. exists (Proxy (length (objects m))).
      rewrite get_version by done. simpl. rewrite lookup_insert_eq.
      split; [done|]. unfold view. simpl.
      by rewrite allocated_deref_new.
Qed.

(** C7, at the failing input: a record of version 0, which is not the
    active one, is updated; the stores hold the updated record, and
    [get(0)] that follows answers [undefined] instead of it.  The fault
    is that of [get], which takes 0 for a missing argument; [update]
    itself does what is claimed ([update_spec]). *)
Theorem updated_zero_not_returned :
  let m := run [Add (mkConfig (VNumber (num 0))
                       (VNumber (status_code INACTIVE))
                       [("name", VString "a")])] empty in
  let c := mkConfig (VNumber (num 0)) (VNumber (status_code INACTIVE))
             [("name", VString "b")] in
  let m' := after (update c) m in
  valid_version (num 0) = true ∧
  outcome (update c) m = inr tt ∧
  snapshot m' (num 0) =
    Some (mkConfig (num 0) (status_code INACTIVE) [("name", VString "b")]) ∧
  get (VNumber (num 0)) m' = (inr None, m').
Proof. vm_compute. done. Qed.

End ConfigManagerTheory.

(** ** PubSubHandler: further properties *)
Module PubSubLaws.
Import PubSub PubSubTheory.

(** X1: Construction: the base class itself is refused whatever the mode; a
    subclass is made exactly when the mode is a number that is the value of
    a member of [PubSubStates], and then it is DISCONNECTED and keeps the
    mode as passed; otherwise "Invalid Mode" is thrown. *)
Theorem constructor_outcomes (mode : value) :
  constructor true mode =
    inl (PubSubHandlerError "PubSubHandler is an abstract class") ∧
  ((∃ s, mode = VNumber (num (state_code s))) ↔
     constructor false mode = inr (Handler DISCONNECTED mode)) ∧
  ((¬ ∃ s, mode = VNumber (num (state_code s))) ↔
     constructor false mode = inl (PubSubHandlerError "Invalid Mode")).
Proof.
  split; [done|]. rewrite <-_validateMode_spec. unfold constructor.
  destruct (_validateMode mode); simpl; naive_solver.
Qed.

Lemma perform_throws_same c h e :
  outcome (perform c) h = inl e → after (perform c) h = h.
Proof.
  destruct c as [k|k|k|k|k]; run_method;
    destruct (isConnected h); simpl; try done;
    try destruct (canSubscribe h); try destruct (canPublish h);
    simpl; try done; destruct k; simpl; done.
Qed.

(** X2: A call that throws, by a guard or by a rejected hook, leaves the
    handler exactly as it was. *)
Theorem throwing_call_changes_nothing (c : call) (h : handler) e :
  outcome (perform c) h = inl e → after (perform c) h = h.
Proof. apply perform_throws_same. Qed.

Lemma throwing_call_changes_nothing_witness :
  after (perform (Subscribe (Rejected "refused")))
        (Handler CONNECTED (VNumber (num 0))) =
    Handler CONNECTED (VNumber (num 0)).
Proof.
  apply (throwing_call_changes_nothing _ _ (HookRejected "refused")).
  reflexivity.
Defined.

Lemma perform_mode c h : mode (after (perform c) h) = mode h.
Proof.
  destruct c as [k|k|k|k|k]; run_method;
    destruct (isConnected h); simpl; try done;
    try destruct (canSubscribe h); try destruct (canPublish h);
    simpl; try done; destruct k; simpl; done.
Qed.

Lemma run_mode cs h : mode (run cs h) = mode h.
Proof.
  revert h. induction cs as [|c cs IH]; intros h; [done|].
  simpl. fold (run cs (after (perform c) h)). by rewrite IH, perform_mode.
Qed.

(** X3: No sequence of calls, whatever the hooks do, changes the mode of a
    handler. *)
Theorem mode_is_fixed (cs : list call) (h : handler) :
  mode (run cs h) = mode h.
Proof. apply run_mode. Qed.

Lemma perform_not_SUBSCRIBED c h :
  canSubscribe h = false → state h ≠ SUBSCRIBED →
  state (after (perform c) h) ≠ SUBSCRIBED.
Proof.
  intros Hc Hs. destruct c as [k|k|k|k|k]; run_method;
    destruct (isConnected h); simpl; rewrite ?Hc; simpl; try done;
    try destruct (canPublish h); simpl; try done; destruct k; simpl; done.
Qed.

(** X4: A handler whose mode does not allow subscribing (PUB, or any value
    that is neither SUB nor DUAL) and that is not SUBSCRIBED never becomes
    SUBSCRIBED, whatever is called on it and whatever the hooks do. *)
Theorem never_SUBSCRIBED_without_sub_mode (cs : list call) (h : handler) :
  canSubscribe h = false → state h ≠ SUBSCRIBED →
  state (run cs h) ≠ SUBSCRIBED ∧ isSubscribed (run cs h) = false.
Proof.
  intros Hc Hs.
  assert (state (run cs h) ≠ SUBSCRIBED) as H.
  { revert h Hc Hs. induction cs as [|c cs IH]; intros h Hc Hs; [done|].
    apply IH.
    - unfold canSubscribe. by rewrite perform_mode.
    - by apply perform_not_SUBSCRIBED. }
  split; [done|]. unfold isSubscribed. by rewrite bool_decide_eq_false_2.
Qed.

Lemma never_SUBSCRIBED_without_sub_mode_witness :
  let cs := [Connect Fulfilled; Subscribe Fulfilled; Publish Fulfilled;
             Unsubscribe Fulfilled; Disconnect (Rejected "busy")] in
  let h := Handler DISCONNECTED (VNumber (num 1)) in
  state (run cs h) ≠ SUBSCRIBED ∧ isSubscribed (run cs h) = false.
Proof.
  intros cs h. apply (never_SUBSCRIBED_without_sub_mode cs h).
  - reflexivity.
  - discriminate.
Defined.

(** X5: After [unsubscribe] returns, the handler counts as disconnected:
    [subscribe], [unsubscribe] and [publish] throw "Not Connected" without
    awaiting their hook, [disconnect] returns without awaiting
    [_disconnect], and [connect] awaits [_connect] again. *)
Theorem unsubscribe_leaves_disconnected (h : handler) (k : hook) :
  isConnected h = true → canSubscribe h = true →
  let h' := after (unsubscribe Fulfilled) h in
  state h' = DISCONNECTED ∧ isConnected h' = false ∧
  subscribe k h' = (inl (PubSubHandlerError "Not Connected"), h') ∧
  unsubscribe k h' = (inl (PubSubHandlerError "Not Connected"), h') ∧
  publish k h' = (inl (PubSubHandlerError "Not Connected"), h') ∧
  disconnect k h' = (inr tt, h') ∧
  connect Fulfilled h' = (inr tt, Handler CONNECTED (mode h)).
Proof.
  intros Hc Hs h'.
  assert (h' = Handler DISCONNECTED (mode h)) as ->.
  { subst h'.
    unfold after, unsubscribe, connectionCheck, subModeCheck, await,
      set_state.
    se_unfold. cbv beta. rewrite Hc. cbv beta iota delta [negb].
    rewrite Hs. done. }
  by run_method.
Qed.

Lemma unsubscribe_leaves_disconnected_witness :
  subscribe Fulfilled
    (after (unsubscribe Fulfilled) (Handler SUBSCRIBED (VNumber (num 2)))) =
  (inl (PubSubHandlerError "Not Connected"),
   Handler DISCONNECTED (VNumber (num 2))).
Proof.
  apply (unsubscribe_leaves_disconnected
           (Handler SUBSCRIBED (VNumber (num 2))) Fulfilled);
    reflexivity.
Defined.

(** X6: [connect] and [disconnect] are idempotent: once one has returned, the
    same call again returns at once, without awaiting its hook, and changes
    nothing. *)
Theorem connect_disconnect_idempotent (h : handler) (k k' : hook) :
  (outcome (connect k) h = inr tt →
     connect k' (after (connect k) h) = (inr tt, after (connect k) h)) ∧
  (outcome (disconnect k) h = inr tt →
     disconnect k' (after (disconnect k) h) =
       (inr tt, after (disconnect k) h)).
Proof.
  split; run_method; destruct (isConnected h) eqn:Hc; simpl;
    rewrite ?Hc; try done; destruct k; simpl; try done.
Qed.

Lemma connect_disconnect_idempotent_witness :
  connect (Rejected "unreachable")
    (after (connect Fulfilled) (Handler DISCONNECTED (VNumber (num 0)))) =
  (inr tt, Handler CONNECTED (VNumber (num 0))).
Proof.
  apply (connect_disconnect_idempotent
           (Handler DISCONNECTED (VNumber (num 0))) Fulfilled
           (Rejected "unreachable")).
  reflexivity.
Defined.

End PubSubLaws.

(** ** InMemoryCatalog: further properties *)
Module CatalogLaws.
Import utils Catalog CatalogCalls NumberFacts CatalogTheory.
Local Open Scope nat_scope.

Lemma splice_insert_Permutation {A} (arr : list A) pos x :
  splice_insert pos x arr ≡ₚ x :: arr.
Proof.
  unfold splice_insert. rewrite <-Permutation_middle.
  by rewrite take_drop.
Qed.

(** X7: [insert] on any collection: it throws and changes nothing, or it
    returns and the collection holds one element more, the clone of the
    item beside the elements it held. *)
Theorem insert_adds_one (items : list Item) (item : ItemOf value) :
  (∃ e, insert item items = (inl e, items)) ∨
  (∃ n items', id item = VNumber n ∧
     insert item items = (inr tt, items') ∧
     size items' = S (size items) ∧
     items' ≡ₚ mkItem n (extra item) :: items).
Proof.
  unfold insert, assertId. se_unfold.
  destruct (id item) as [| | |n| |] eqn:Hid; simpl; try (left; by eexists).
  destruct (isNaN n || num_lt n (num 1)); simpl; [left; by eexists|].
  assert (∀ pos,
            size (splice_insert pos (mkItem n (extra item)) items)
              = S (size items) ∧
            splice_insert pos (mkItem n (extra item)) items
              ≡ₚ mkItem n (extra item) :: items) as Hsplice.
  { intros pos. split; [apply splice_insert_length|].
    apply splice_insert_Permutation. }
  destruct (items !! _) as [itemAtPos|].
  - destruct (negb _); simpl; [|left; by eexists].
    right. eexists n, _. split; [done|]. split; [done|]. apply Hsplice.
  - right. eexists n, _. split; [done|]. split; [done|]. apply Hsplice.
Qed.

(** *** The lookup on a well-formed collection *)
Lemma well_formed_not_NaN items a :
  well_formed items → a ∈ items → isNaN (id a) = false.
Proof.
  intros [_ Hval] Ha.
  by apply Hval, valid_identity_spec in Ha as (? & [= <-] & ? & _).
Qed.

Lemma ascending_index_inj items i j a b :
  ascending items → items !! i = Some a → items !! j = Some b →
  id a = id b → i = j.
Proof.
  intros Hasc Ha Hb Heq.
  destruct (Nat.lt_total i j) as [Hlt|[->|Hlt]]; [|done|].
  - pose proof (Hasc i j a b Ha Hb Hlt) as H.
    by rewrite Heq, num_lt_irrefl in H.
  - pose proof (Hasc j i b a Hb Ha Hlt) as H.
    by rewrite Heq, num_lt_irrefl in H.
Qed.

(** On a well-formed collection [bSearch] answers the index of the element
    with the identity looked for, or [-1] when there is none. *)
Lemma bSearch_spec items (x : Item) :
  well_formed items → isNaN (id x) = false →
  (∃ i a, items !! i = Some a ∧ id a = id x ∧
          bSearch items itemIdComparator x = Z.of_nat i) ∨
  ((∀ a, a ∈ items → id a ≠ id x) ∧
   bSearch items itemIdComparator x = (-1)%Z).
Proof.
  intros Hwf Hx. pose proof Hwf as [Hasc Hval].
  destruct (insertionIndex_correct items itemIdComparator x)
    as (Hpos & Hbefore & Hafter).
  { intros i j a b Ha Hb Hij. unfold itemIdComparator.
    rewrite !num_sub_neg. intros Hlt.
    destruct (decide (i = j)) as [->|Hne]; [by simplify_eq|].
    eapply num_lt_trans; [|done]. eapply Hasc; eauto with lia. }
  set (pos := insertionIndex items itemIdComparator x) in *.
  assert (∀ i a, i < pos → items !! i = Some a → id a ≠ id x) as Hlow.
  { intros i a Hi Ha Heq. specialize (Hbefore i a Hi Ha).
    unfold itemIdComparator in Hbefore.
    by rewrite num_sub_neg, Heq, num_lt_irrefl in Hbefore. }
  assert (bSearch items itemIdComparator x =
          match items !! pos with
          | Some a => if num_lt (id x) (id a) then (-1)%Z else Z.of_nat pos
          | None => (-1)%Z
          end) as ->.
  { unfold bSearch. change (insertionIndex items itemIdComparator x) with pos.
    destruct (items !! pos); [|done].
    unfold itemIdComparator. by rewrite num_sub_neg. }
  destruct (items !! pos) as [a|] eqn:Hat.
  - destruct (num_lt (id x) (id a)) eqn:Hxa.
    + right. split; [|done].
      intros b [i Hi]%list_elem_of_lookup Heq.
      destruct (decide (i < pos)) as [?|?]; [by eapply Hlow|].
      assert (num_lt (id x) (id b) = true) as H.
      { destruct (decide (i = pos)) as [->|?]; [by simplify_eq|].
        eapply num_lt_trans; [done|]. eapply Hasc; eauto with lia. }
      by rewrite Heq, num_lt_irrefl in H.
    + left. exists pos, a. split; [done|]. split; [|done].
      specialize (Hafter pos a (le_n _) Hat).
      unfold itemIdComparator in Hafter. rewrite num_sub_neg in Hafter.
      destruct (num_eq (id a) (id x)) eqn:Heq.
      * by apply num_eq_true in Heq as [_ ?].
      * rewrite (num_lt_total (id a) (id x)) in Hxa; try done.
        eapply well_formed_not_NaN; eauto using list_elem_of_lookup_2.
  - right. split; [|done].
    intros b [i Hi]%list_elem_of_lookup. eapply Hlow; [|done].
    apply lookup_ge_None_1 in Hat. apply lookup_lt_Some in Hi. lia.
Qed.

Lemma findById_cases items n :
  well_formed items → valid_identity (VNumber n) = true →
  (∃ i a, items !! i = Some a ∧ id a = n ∧
          findById (VNumber n) items = (inr (Some a), items)) ∨
  ((∀ a, a ∈ items → id a ≠ n) ∧
   findById (VNumber n) items = (inr None, items)).
Proof.
  intros Hwf Hv.
  pose proof Hv as (? & [= <-] & HnNaN & _)%valid_identity_spec.
  unfold findById, findIndex_id. se_unfold.
  rewrite (assertId_valid _ n) by done. cbn zeta.
  destruct (bSearch_spec items (mkItem n []) Hwf HnNaN)
    as [(i & a & Ha & Hid & ->)|[Hno ->]].
  - left. exists i, a. split; [done|]. split; [done|].
    rewrite (proj2 (Z.ltb_lt _ _)) by lia. by rewrite Nat2Z.id, Ha.
  - by right.
Qed.

Lemma update_cases items item n :
  well_formed items → id item = VNumber n →
  valid_identity (id item) = true →
  (∃ i a, items !! i = Some a ∧ id a = n ∧
          update item items =
            (inr tt, <[i:=mkItem n (extra item)]> items)) ∨
  ((∀ a, a ∈ items → id a ≠ n) ∧
   update item items = (inl (INDEX_ERROR n), items)).
Proof.
  intros Hwf Hid Hv.
  pose proof Hv as (n' & Hn' & HnNaN & _)%valid_identity_spec.
  rewrite Hid in Hn'. injection Hn' as <-.
  unfold update, findIndex_item. se_unfold.
  rewrite (assertId_valid _ n) by done. cbn zeta.
  destruct (bSearch_spec items (mkItem n (extra item)) Hwf HnNaN)
    as [(i & a & Ha & Hida & ->)|[Hno ->]].
  - left. exists i, a. split; [done|]. split; [done|].
    rewrite (proj2 (Z.ltb_lt _ _)) by lia. by rewrite Nat2Z.id.
  - by right.
Qed.

Lemma remove_cases items n :
  well_formed items → valid_identity (VNumber n) = true →
  (∃ i a, items !! i = Some a ∧ id a = n ∧
          remove (VNumber n) items = (inr tt, delete i items)) ∨
  ((∀ a, a ∈ items → id a ≠ n) ∧
   remove (VNumber n) items = (inr tt, items)).
Proof.
  intros Hwf Hv.
  pose proof Hv as (? & [= <-] & HnNaN & _)%valid_identity_spec.
  unfold remove, findIndex_id. se_unfold.
  rewrite (assertId_valid _ n) by done. cbn zeta.
  destruct (bSearch_spec items (mkItem n []) Hwf HnNaN)
    as [(i & a & Ha & Hid & ->)|[Hno ->]].
  - left. exists i, a. split; [done|]. split; [done|].
    rewrite (proj2 (Z.ltb_lt _ _)) by lia.
    unfold modify, splice_delete. by rewrite Nat2Z.id, delete_take_drop.
  - by right.
Qed.

(** *** The invariant under every method *)
Lemma lookup_replace_id (items : list Item) i a x j b :
  items !! i = Some a → id x = id a → <[i:=x]> items !! j = Some b →
  ∃ b', items !! j = Some b' ∧ id b' = id b.
Proof.
  intros Ha Hid. rewrite list_lookup_insert.
  case_decide as H; [destruct H as [-> _]|]; intros Hb; simplify_eq.
  - exists a. split; [done|congruence].
  - by exists b.
Qed.

Lemma replace_well_formed items i a x :
  well_formed items → items !! i = Some a → id x = id a →
  well_formed (<[i:=x]> items).
Proof.
  intros [Hasc Hval] Ha Hid. split.
  - intros j k b c Hb Hc Hjk.
    destruct (lookup_replace_id _ _ _ _ _ _ Ha Hid Hb) as (b' & Hb' & <-).
    destruct (lookup_replace_id _ _ _ _ _ _ Ha Hid Hc) as (c' & Hc' & <-).
    by eapply Hasc.
  - intros b [j Hj]%list_elem_of_lookup. rewrite list_lookup_insert in Hj.
    case_decide as H; simplify_eq.
    + rewrite Hid. eapply Hval, list_elem_of_lookup_2, Ha.
    + eapply Hval, list_elem_of_lookup_2, Hj.
Qed.

Lemma delete_well_formed items i :
  well_formed items → well_formed (delete i items).
Proof.
  intros [Hasc Hval]. split.
  - intros j k b c. rewrite !list_lookup_delete. intros Hb Hc Hjk.
    eapply Hasc; [done..|]. repeat case_decide; lia.
  - intros b Hb%list_elem_of_delete_inv. by apply Hval.
Qed.

Lemma catalog_update_well_formed item items :
  well_formed items → well_formed (after (update item) items).
Proof.
  intros Hwf. unfold after.
  destruct (valid_identity (id item)) eqn:Hv.
  - pose proof Hv as (n & Hid & _)%valid_identity_spec.
    destruct (update_cases items item n Hwf Hid Hv)
      as [(i & a & Ha & Hida & ->)|[_ ->]]; [|done].
    by eapply replace_well_formed.
  - unfold update. se_unfold. by rewrite assertId_invalid.
Qed.

Lemma catalog_remove_well_formed v items :
  well_formed items → well_formed (after (remove v) items).
Proof.
  intros Hwf. unfold after.
  destruct (valid_identity v) eqn:Hv.
  - pose proof Hv as (n & -> & _)%valid_identity_spec.
    destruct (remove_cases items n Hwf Hv)
      as [(i & a & Ha & Hida & ->)|[_ ->]]; [|done].
    by apply delete_well_formed.
  - unfold remove. se_unfold. by rewrite assertId_invalid.
Qed.

Lemma catalog_run_well_formed cs items :
  well_formed items → well_formed (run cs items).
Proof.
  revert items. induction cs as [|c cs IH]; intros items Hwf; [done|].
  apply IH. destruct c; simpl;
    auto using insert_well_formed, catalog_update_well_formed,
      catalog_remove_well_formed.
Qed.

Lemma catalog_reached_well_formed cs : well_formed (run cs []).
Proof. apply catalog_run_well_formed, empty_catalog_well_formed. Qed.

(** X9: After every sequence of [insert], [update] and [remove] calls,
    returning or throwing, [fetchAll()] is in strictly ascending order of
    identity, holds no identity twice, and every stored identity is one
    that [assertId] accepts. *)
Theorem catalog_always_sorted (cs : list call) :
  let items := run cs [] in
  ascending (fetchAll items) ∧
  NoDup (id <$> fetchAll items) ∧
  (∀ a, a ∈ fetchAll items → valid_identity (VNumber (id a)) = true) ∧
  size items = length (fetchAll items).
Proof.
  intros items. rewrite fetchAll_copy.
  destruct (catalog_reached_well_formed cs) as [Hasc Hval].
  fold items in Hasc, Hval.
  split_and!; [done|by apply ascending_NoDup|done|done].
Qed.

Lemma well_formed_same_id items a b :
  well_formed items → a ∈ items → b ∈ items → id a = id b → a = b.
Proof.
  intros [Hasc _] [i Hi]%list_elem_of_lookup [j Hj]%list_elem_of_lookup Hid.
  pose proof (ascending_index_inj items i j a b Hasc Hi Hj Hid) as ->.
  congruence.
Qed.

(** X10: [findById] on a catalog reached by any calls: it never changes the
    collection; it throws INVALID_ID exactly for an identity that
    [assertId] refuses; otherwise it answers the stored item with that
    identity when there is one and [undefined] when there is none. *)
Theorem findById_finds (cs : list call) (v : value) :
  let items := run cs [] in
  (valid_identity v = false ∧
   findById v items = (inl (INVALID_ID v), items)) ∨
  (∃ a, a ∈ items ∧ VNumber (id a) = v ∧
        findById v items = (inr (Some a), items)) ∨
  (valid_identity v = true ∧ (∀ a, a ∈ items → VNumber (id a) ≠ v) ∧
   findById v items = (inr None, items)).
Proof.
  intros items. pose proof (catalog_reached_well_formed cs) as Hwf.
  fold items in Hwf.
  destruct (valid_identity v) eqn:Hv.
  - right. pose proof Hv as (n & -> & _)%valid_identity_spec.
    destruct (findById_cases items n Hwf Hv)
      as [(i & a & Ha & <- & ->)|[Hno ->]].
    + left. exists a. eauto using list_elem_of_lookup_2.
    + right. split; [done|]. split; [|done].
      intros a Ha [= Heq]. by eapply Hno.
  - left. split; [done|]. unfold findById. se_unfold.
    by rewrite assertId_invalid.
Qed.

(** X11: [update] on a catalog reached by any calls: it throws INVALID_ID for
    an identity [assertId] refuses and INDEX_ERROR when no stored item has
    the identity, changing nothing; otherwise it overwrites the one stored
    item that has the identity with the clone of its argument, every other
    position and the size staying as they were. *)
Theorem catalog_update_replaces (cs : list call) (item : ItemOf value) :
  let items := run cs [] in
  (valid_identity (id item) = false ∧
   update item items = (inl (INVALID_ID (id item)), items)) ∨
  (∃ n, id item = VNumber n ∧ (∀ a, a ∈ items → id a ≠ n) ∧
        update item items = (inl (INDEX_ERROR n), items)) ∨
  (∃ n i a, id item = VNumber n ∧ items !! i = Some a ∧ id a = n ∧
        update item items = (inr tt, <[i:=mkItem n (extra item)]> items) ∧
        size (<[i:=mkItem n (extra item)]> items) = size items).
Proof.
  intros items. pose proof (catalog_reached_well_formed cs) as Hwf.
  fold items in Hwf.
  destruct (valid_identity (id item)) eqn:Hv.
  - right. pose proof Hv as (n & Hid & _)%valid_identity_spec.
    destruct (update_cases items item n Hwf Hid Hv)
      as [(i & a & Ha & Hida & ->)|[Hno ->]].
    + right. exists n, i, a. split_and!; try done. apply length_insert.
    + left. by exists n.
  - left. split; [done|]. unfold update. se_unfold.
    by rewrite assertId_invalid.
Qed.

(** X12: [remove] on a catalog reached by any calls: it throws INVALID_ID for
    an identity [assertId] refuses; it returns and changes nothing when no
    stored item has the identity; otherwise it deletes the one stored item
    that has it, the size is one less and no item with that identity is
    left. *)
Theorem catalog_remove_deletes (cs : list call) (v : value) :
  let items := run cs [] in
  (valid_identity v = false ∧
   remove v items = (inl (INVALID_ID v), items)) ∨
  (valid_identity v = true ∧ (∀ a, a ∈ items → VNumber (id a) ≠ v) ∧
   remove v items = (inr tt, items)) ∨
  (∃ i a, items !! i = Some a ∧ VNumber (id a) = v ∧
        remove v items = (inr tt, delete i items) ∧
        S (size (delete i items)) = size items ∧
        ∀ b, b ∈ delete i items → VNumber (id b) ≠ v).
Proof.
  intros items. pose proof (catalog_reached_well_formed cs) as Hwf.
  fold items in Hwf.
  destruct (valid_identity v) eqn:Hv.
  - right. pose proof Hv as (n & -> & _)%valid_identity_spec.
    destruct (remove_cases items n Hwf Hv)
      as [(i & a & Ha & <- & ->)|[Hno ->]].
    + right. exists i, a. split_and!; try done.
      * unfold size. rewrite length_delete by eauto.
        apply lookup_lt_Some in Ha. lia.
      * intros b [j Hj]%list_elem_of_lookup [= Hid].
        rewrite list_lookup_delete in Hj.
        pose proof (ascending_index_inj items _ _ _ _ (proj1 Hwf) Hj Ha Hid).
        case_decide; lia.
    + left. split; [done|]. split; [|done].
      intros a Ha [= Heq]. by eapply Hno.
  - left. split; [done|]. unfold remove. se_unfold.
    by rewrite assertId_invalid.
Qed.

(** X13: Store and look up: on a catalog reached by any calls, after an
    [insert] or an [update] that returned, [findById] with the identity of
    the item answers the clone of that item. *)
Theorem stored_item_is_found (cs : list call) (item : ItemOf value) :
  let items := run cs [] in
  (outcome (insert item) items = inr tt →
     ∃ n, id item = VNumber n ∧
       findById (id item) (after (insert item) items) =
         (inr (Some (mkItem n (extra item))), after (insert item) items)) ∧
  (outcome (update item) items = inr tt →
     ∃ n, id item = VNumber n ∧
       findById (id item) (after (update item) items) =
         (inr (Some (mkItem n (extra item))), after (update item) items)).
Proof.
  intros items. pose proof (catalog_reached_well_formed cs) as Hwf.
  fold items in Hwf.
  assert (∀ items' n, well_formed items' → id item = VNumber n →
            valid_identity (id item) = true →
            mkItem n (extra item) ∈ items' →
            findById (id item) items' =
              (inr (Some (mkItem n (extra item))), items')) as Hfind.
  { intros items' n Hwf' Hid Hv Hin. rewrite Hid in Hv |- *.
    destruct (findById_cases items' n Hwf' Hv)
      as [(i & a & Ha & Hida & ->)|[Hno _]].
    - do 3 f_equal.
      eapply well_formed_same_id; eauto using list_elem_of_lookup_2.
    - by destruct (Hno _ Hin). }
  split; unfold outcome, after; intros Hout.
  - destruct (valid_identity (id item)) eqn:Hv.
    2:{ by rewrite insert_invalid in Hout. }
    pose proof Hv as (n & Hid & _)%valid_identity_spec. exists n.
    split; [done|].
    destruct (insert_cases item n items Hwf Hid Hv)
      as [[_ Heq]|[_ (pos & Heq & Hwf')]]; rewrite Heq in Hout |- *; [done|].
    simpl. apply Hfind; try done. apply splice_insert_elem_of. by left.
  - destruct (valid_identity (id item)) eqn:Hv.
    2:{ unfold update in Hout. se_unfold.
        by rewrite assertId_invalid in Hout. }
    pose proof Hv as (n & Hid & _)%valid_identity_spec. exists n.
    split; [done|].
    destruct (update_cases items item n Hwf Hid Hv)
      as [(i & a & Ha & Hida & Heq)|[_ Heq]]; rewrite Heq in Hout |- *;
      [|done].
    simpl. apply Hfind; try done.
    + by eapply replace_well_formed.
    + apply list_elem_of_insert. by eapply lookup_lt_Some.
Qed.

Lemma stored_item_is_found_witness :
  let cs := [Insert (mkItem (VNumber (num 5)) []);
             Insert (mkItem (VNumber (num 2)) []);
             Remove (VNumber (num 5))] in
  let item := mkItem (VNumber (num 3)) [("name", VString "three")] in
  ∃ n, id item = VNumber n ∧
    findById (id item) (after (insert item) (run cs [])) =
      (inr (Some (mkItem n (extra item))), after (insert item) (run cs [])).
Proof.
  intros cs item. apply (stored_item_is_found cs item). reflexivity.
Defined.

(** *** The constructor *)

(** One step of the constructor's loop. *)
Local Abbreviation step := (λ acc item,
  match acc with
  | inl e => inl e
  | inr items => match insert item items with
                 | (inl e, _) => inl e
                 | (inr _, items') => inr items'
                 end
  end).

Lemma catalog_loop_thrown (its : list (ItemOf value)) e :
  foldl step (inl e) its = inl e.
Proof. by induction its. Qed.

Lemma as_passed_clone (item : ItemOf value) n :
  id item = VNumber n → as_passed (mkItem n (extra item)) = item.
Proof. destruct item. simpl. by intros ->. Qed.

(** The loop from a well-formed collection: it ends without a throw
    exactly when every identity is accepted, no two items share one and
    none is stored already. *)
Lemma catalog_loop its items0 :
  well_formed items0 →
  let accepted :=
    Forall (λ item, valid_identity (id item) = true) its ∧
    NoDup (id <$> its) ∧
    (∀ item a, item ∈ its → a ∈ items0 → id item ≠ VNumber (id a)) in
  match foldl step (inr items0) its with
  | inr items =>
      accepted ∧ well_formed items ∧
      as_passed <$> items ≡ₚ its ++ (as_passed <$> items0)
  | inl _ => ¬ accepted
  end.
Proof.
  revert items0. induction its as [|item its IH]; intros items0 Hwf; simpl.
  { split_and!; try done; try by constructor.
    by intros ? ? ?%elem_of_nil. }
  destruct (valid_identity (id item)) eqn:Hv.
  2:{ rewrite insert_invalid, catalog_loop_thrown by done.
      intros [Hall _]. apply Forall_cons in Hall as [? _]. congruence. }
  pose proof Hv as (n & Hid & _)%valid_identity_spec.
  destruct (insert_cases item n items0 Hwf Hid Hv)
    as [[(a & Ha & Hida) ->]|[Hnew (pos & -> & Hwf')]].
  { rewrite catalog_loop_thrown. intros (_ & _ & Hfresh).
    apply (Hfresh item a); [by left|done|by rewrite Hida]. }
  set (items1 := splice_insert pos (mkItem n (extra item)) items0) in *.
  assert (∀ a, a ∈ items1 ↔ a = mkItem n (extra item) ∨ a ∈ items0) as Hin1.
  { intros a. apply splice_insert_elem_of. }
  specialize (IH items1 Hwf'). cbn zeta in IH.
  destruct (foldl step (inr items1) its) as [e|items].
  - intros (Hall & Hnd & Hfresh). apply IH.
    apply Forall_cons in Hall as [_ Hall].
    rewrite ?fmap_cons in Hnd. apply NoDup_cons in Hnd as [Hhd Hnd].
    split_and!; try done.
    intros item' a Hitem' [->|Ha]%Hin1.
    + simpl. rewrite <-Hid. intros Heq. apply Hhd. rewrite <-Heq.
      by apply list_elem_of_fmap_2.
    + apply Hfresh; [by right|done].
  - destruct IH as ((Hall & Hnd & Hfresh) & Hwf'' & Hperm).
    split_and!; try done.
    + by constructor.
    + rewrite ?fmap_cons. apply NoDup_cons. split; [|done].
      intros (item' & Heq & Hitem')%list_elem_of_fmap.
      apply (Hfresh item' (mkItem n (extra item))); [done|apply Hin1; by left|].
      simpl. congruence.
    + intros item' a [->|Hitem']%elem_of_cons Ha.
      * rewrite Hid. intros [= Heq]. by eapply Hnew.
      * apply Hfresh; [done|]. apply Hin1. by right.
    + rewrite Hperm. subst items1.
      rewrite splice_insert_Permutation, fmap_cons.
      rewrite (as_passed_clone item n Hid).
      by rewrite <-Permutation_middle.
Qed.

(** X8: [new InMemoryCatalog(items)] returns exactly when [assertId] accepts
    every identity and no two items share one; the catalog then holds one
    clone per item, in strictly ascending order of identity.  Otherwise
    the constructor throws. *)
Theorem constructor_builds (its : list (ItemOf value)) :
  match constructor (Some its) with
  | inr items =>
      Forall (λ item, valid_identity (id item) = true) its ∧
      NoDup (id <$> its) ∧
      ascending (fetchAll items) ∧
      as_passed <$> fetchAll items ≡ₚ its ∧
      size items = length its
  | inl _ =>
      ¬ (Forall (λ item, valid_identity (id item) = true) its ∧
         NoDup (id <$> its))
  end.
Proof.
  unfold constructor.
  pose proof (catalog_loop its [] empty_catalog_well_formed) as H.
  cbn zeta in H. destruct (foldl _ _ its) as [e|items].
  - intros [Hall Hnd]. apply H. split_and!; try done.
    by intros ? ? ? ?%elem_of_nil.
  - destruct H as ((Hall & Hnd & _) & [Hasc _] & Hperm).
    rewrite fetchAll_copy. rewrite app_nil_r in Hperm.
    split_and!; try done.
    unfold size. by rewrite <-(length_fmap as_passed), Hperm.
Qed.

End CatalogLaws.

(** ** InMemoryConfigManager: further properties *)
Module ConfigManagerLaws.
Import ConfigManager ConfigManagerChecks NumberFacts ConfigManagerTheory.
Local Open Scope nat_scope.

Lemma manager_reached_well_formed cs : well_formed (run cs empty).
Proof. apply run_well_formed, empty_manager_well_formed. Qed.

(** *** Validation *)
Lemma assertVersion_refused v m :
  accepts_version v = false →
  assertVersion v m = (inl (INVALID_VERSION v), m).
Proof.
  intros Hv. apply assertVersion_invalid. by intros n ->.
Qed.

Lemma accepts_version_number v :
  accepts_version v = true → ∃ n, v = VNumber n ∧ valid_version n = true.
Proof. destruct v; try done. eauto. Qed.

Lemma assertStatus_refused s m :
  accepts_status s = false →
  assertStatus s m = (inl (INVALID_STATUS s), m).
Proof.
  intros Hs. destruct (assertStatus_cases s m) as [?|(n & -> & Hn & _)];
    [done|]. unfold accepts_status in Hs. simpl in Hs. congruence.
Qed.

(** X14: Every method validates first: with a version that [assertVersion]
    refuses, [activate], [remove], [add], [update], and [get] when the
    argument is truthy, throw INVALID_VERSION and change nothing; with an
    accepted version and a status that [assertStatus] refuses, [add] and
    [update] throw INVALID_STATUS and change nothing. *)
Theorem validation_comes_first (m : manager) (v : value)
    (config : ConfigOf value) :
  (accepts_version v = false →
     activate v m = (inl (INVALID_VERSION v), m) ∧
     remove v m = (inl (INVALID_VERSION v), m) ∧
     (ToBoolean v = true → get v m = (inl (INVALID_VERSION v), m))) ∧
  (accepts_version (version config) = false →
     add config m = (inl (INVALID_VERSION (version config)), m) ∧
     update config m = (inl (INVALID_VERSION (version config)), m)) ∧
  (accepts_version (version config) = true →
   accepts_status (status config) = false →
     add config m = (inl (INVALID_STATUS (status config)), m) ∧
     update config m = (inl (INVALID_STATUS (status config)), m)).
Proof.
  split_and!.
  - intros Hv. unfold activate, remove, get. se_unfold.
    rewrite assertVersion_refused by done. split_and!; try done.
    intros ->. by rewrite assertVersion_refused.
  - intros Hv. unfold add, update. se_unfold.
    by rewrite assertVersion_refused.
  - intros (n & Hn & Hvn)%accepts_version_number Hs.
    unfold add, update. se_unfold. rewrite Hn.
    rewrite assertVersion_valid by done.
    by rewrite assertStatus_refused.
Qed.

Lemma validation_comes_first_witness :
  activate (VNumber (num (-1))) example_manager =
    (inl (INVALID_VERSION (VNumber (num (-1)))), example_manager) ∧
  add (mkConfig (VNumber (num 3)) (VNumber (num 2)) []) example_manager =
    (inl (INVALID_STATUS (VNumber (num 2))), example_manager).
Proof.
  split.
  - apply (validation_comes_first example_manager (VNumber (num (-1)))
             (mkConfig VUndefined VUndefined [])).
    reflexivity.
  - apply (validation_comes_first example_manager VUndefined
             (mkConfig (VNumber (num 3)) (VNumber (num 2)) []));
      reflexivity.
Defined.

(** *** Throws and sizes *)
Lemma activated_configs n m :
  configs (activated n m).2 = configs m ∧
  fakeConfigs (activated n m).2 = fakeConfigs m.
Proof.
  unfold activated. destruct (configs m !! n); [|done].
  by case_bool_decide.
Qed.

Lemma activated_outcome n m :
  (activated n m).1 = inr tt ∨ (activated n m) = (inl (NO_CONFIG n), m).
Proof.
  unfold activated. destruct (configs m !! n); [|by right].
  left. by case_bool_decide.
Qed.

Lemma perform_throws_unchanged c m e :
  outcome (perform c) m = inl e → after (perform c) m = m.
Proof.
  unfold outcome, after. destruct c as [config|config|v|v]; simpl.
  - destruct (assertVersion_cases (version config) m)
      as [H|(v & Hv & Hvv & H)].
    { unfold add. se_unfold. by rewrite H. }
    destruct (assertStatus_cases (status config) m)
      as [H'|(s & Hs & Hvs & H')].
    { unfold add. se_unfold. by rewrite H, H'. }
    rewrite (add_eq config v s) by done.
    destruct (_ && _); [done|]. case_bool_decide; [done|]. cbn zeta.
    destruct (num_eq s _); [|done].
    destruct (activated_outcome v
                (allocated v (mkConfig v s (extra config)) m)) as [Ho|Ho].
    + by rewrite Ho.
    + exfalso. unfold activated in Ho. simpl in Ho.
      by rewrite lookup_insert_eq in Ho; case_bool_decide.
  - destruct (assertVersion_cases (version config) m)
      as [H|(v & Hv & Hvv & H)].
    { unfold update. se_unfold. by rewrite H. }
    destruct (assertStatus_cases (status config) m)
      as [H'|(s & Hs & Hvs & H')].
    { unfold update. se_unfold. by rewrite H, H'. }
    rewrite (update_eq config v s) by done.
    destruct (configs m !! v); [|done]. by destruct (num_eq _ _).
  - destruct (assertVersion_cases v m) as [H|(n & -> & Hn & H)].
    { unfold remove. se_unfold. by rewrite H. }
    rewrite remove_eq by done.
    destruct (configs m !! n); [|done]. by destruct (isActive _).
  - destruct (assertVersion_cases v m) as [H|(n & -> & Hn & H)].
    { unfold activate. se_unfold. by rewrite H. }
    rewrite activate_eq by done.
    destruct (activated_outcome n m) as [Ho| ->]; [|done]. by rewrite Ho.
Qed.

(** X15: On any manager state, a call of [add], [update], [remove] or
    [activate] that throws leaves the maps, the objects and the active
    pointer exactly as they were. *)
Theorem throwing_call_leaves_manager (c : call) (m : manager) e :
  outcome (perform c) m = inl e → after (perform c) m = m.
Proof. apply perform_throws_unchanged. Qed.

Lemma throwing_call_leaves_manager_witness :
  after (perform (Add (mkConfig (VNumber (num 3))
                         (VNumber (status_code ACTIVE)) [])))
        example_manager = example_manager.
Proof.
  apply (throwing_call_leaves_manager _ _ ACTIVE_OVERWRITE). reflexivity.
Defined.

(** *** [add] *)
Lemma allocated_stored v c m :
  structured m →
  stored (allocated v c m) v = Some c ∧
  (∀ v', v' ≠ v → stored (allocated v c m) v' = stored m v').
Proof.
  intros Hs. unfold stored. simpl. split.
  - rewrite lookup_insert_eq. simpl. by rewrite allocated_deref_new.
  - intros v' Hne. rewrite lookup_insert_ne by done.
    destruct (configs m !! v') as [r|] eqn:Hr; [|done]. simpl.
    by rewrite allocated_deref_old by (by eapply Hs).
Qed.

(** X16: [add] with an accepted version and status, on a manager reached by any
    calls.  An ACTIVE config is refused with ACTIVE_OVERWRITE while the
    active pointer is set, before the version is looked at; a stored
    version is refused with DUPLICATE_VERSION; both change nothing.
    Otherwise the clone is stored under the version in both maps, the
    size grows by one, the other records stay, and an ACTIVE config becomes
    the active version. *)
Theorem add_stores (cs : list call) v s (fields : list (string * value)) :
  valid_version v = true → valid_status s = true →
  let m := run cs empty in
  let config := mkConfig (VNumber v) (VNumber s) fields in
  (s = status_code ACTIVE ∧ is_Some (activeConfig m) ∧
   add config m = (inl ACTIVE_OVERWRITE, m)) ∨
  ((s = status_code ACTIVE → activeConfig m = None) ∧
   is_Some (configs m !! v) ∧
   add config m = (inl (DUPLICATE_VERSION v), m)) ∨
  ((s = status_code ACTIVE → activeConfig m = None) ∧
   configs m !! v = None ∧
   ∃ m', add config m = (inr tt, m') ∧
     stored m' v = Some (mkConfig v s fields) ∧
     snapshot m' v = Some (mkConfig v s fields) ∧
     size m' = S (size m) ∧
     (∀ v', v' ≠ v → stored m' v' = stored m v') ∧
     activeVersion m' =
       if decide (s = status_code ACTIVE) then Some v else activeVersion m).
Proof.
  intros Hv Hs m config.
  pose proof (manager_reached_well_formed cs) as Hwf. fold m in Hwf.
  pose proof (add_well_formed config m Hwf) as Hwf'. unfold after in Hwf'.
  pose proof Hwf as (Hst & Hact & Hsto).
  pose proof (add_eq config v s m eq_refl eq_refl Hv Hs) as Hadd.
  cbn zeta in Hadd.
  change (mkConfig v s (extra config)) with (mkConfig v s fields) in Hadd.
  set (c := mkConfig v s fields) in *.
  assert (isNaN s = false) as HsNaN.
  { apply valid_status_cases in Hs as [-> | ->]; done. }
  destruct (num_eq s (status_code ACTIVE)) eqn:Hsa.
  - apply num_eq_true in Hsa as [_ Hs1]. rewrite andb_true_l in Hadd.
    destruct (decide (is_Some (activeConfig m))) as [Hac|Hac].
    { rewrite bool_decide_eq_true_2 in Hadd by done. by left. }
    rewrite bool_decide_eq_false_2 in Hadd by done.
    apply eq_None_not_Some in Hac. right.
    destruct (decide (is_Some (configs m !! v))) as [Hcv|Hcv].
    { rewrite bool_decide_eq_true_2 in Hadd by done. by left. }
    rewrite bool_decide_eq_false_2 in Hadd by done.
    apply eq_None_not_Some in Hcv. right. split_and!; try done.
    set (m1 := allocated v c m) in *.
    assert (structured m1) as Hst1 by (by apply allocated_structured).
    assert (configs m1 !! v = Some (length (objects m))) as Hr
      by apply lookup_insert_eq.
    assert (activeVersion m1 = None) as Hav1.
    { unfold m1. rewrite allocated_activeVersion by done.
      unfold activeVersion. by rewrite Hac. }
    rewrite (activated_swap v m1 _ Hst1 Hr) in Hadd by (by rewrite Hav1).
    rewrite Hav1 in Hadd. rewrite Hadd in Hwf'. simpl in Hwf'.
    eexists. split; [done|].
    destruct (allocated_stored v c m Hst) as [Hnew Hold]. fold m1 in Hnew, Hold.
    assert (S (length (objects m)) = length (objects m1)) as Hlen.
    { unfold m1. simpl. rewrite length_app. simpl. lia. }
    assert (stored
              (Manager (alter (with_status (status_code ACTIVE))
                          (length (objects m)) (objects m1))
                 (configs m1) (fakeConfigs m1)
                 (Some (Proxy (length (objects m))))) v = Some c) as Hsv.
    { unfold stored, deref in Hnew |- *. cbn [configs objects] in Hnew |- *.
      rewrite Hr in Hnew |- *. simpl in Hnew |- *.
      rewrite list_lookup_total_alter_eq
        by (unfold m1; simpl; rewrite length_app; simpl; lia).
      injection Hnew as ->. unfold with_status, c. simpl. by rewrite Hs1. }
    split_and!.
    + done.
    + by rewrite structured_snapshot by apply Hwf'.
    + unfold size. simpl. by rewrite map_size_insert_None.
    + intros v' Hne. rewrite <-Hold by done.
      unfold stored, deref. cbn [configs objects].
      destruct (configs m1 !! v') as [r|] eqn:Hr'; [|done]. simpl. f_equal.
      rewrite list_lookup_total_alter_ne; [done|]. intros <-.
      apply Hne. by eapply structured_inj.
    + rewrite decide_True by done. unfold activeVersion, view, deref.
      cbn [activeConfig objects target fmap option_fmap option_map].
      f_equal. rewrite version_alter_status.
      change (objects m1 !!! length (objects m))
        with (deref m1 (length (objects m))).
      unfold m1. by rewrite allocated_deref_new.
  - assert (s ≠ status_code ACTIVE) as Hs1.
    { intros ->. by rewrite num_eq_refl in Hsa. }
    rewrite andb_false_l in Hadd. right.
    destruct (decide (is_Some (configs m !! v))) as [Hcv|Hcv].
    { rewrite bool_decide_eq_true_2 in Hadd by done. by left. }
    rewrite bool_decide_eq_false_2 in Hadd by done.
    apply eq_None_not_Some in Hcv. right. split_and!; try done.
    rewrite Hadd in Hwf'. simpl in Hwf'.
    eexists. split; [done|].
    destruct (allocated_stored v c m Hst) as [Hnew Hold].
    split_and!; try done.
    + by rewrite structured_snapshot by apply Hwf'.
    + unfold size. simpl. by rewrite map_size_insert_None.
    + rewrite decide_False by done. by apply allocated_activeVersion.
Qed.

Lemma add_stores_witness :
  ∃ m', add (mkConfig (VNumber (num 3)) (VNumber (status_code INACTIVE)) [])
            example_manager = (inr tt, m') ∧
        size m' = S (size example_manager).
Proof.
  destruct (add_stores
              [Add (mkConfig (VNumber (num 1)) (VNumber (status_code ACTIVE)) []);
               Add (mkConfig (VNumber (num 2)) (VNumber (status_code INACTIVE)) [])]
              (num 3) (status_code INACTIVE) [] eq_refl eq_refl)
    as [(H & _)|[(_ & H & _)|(_ & _ & m' & Hadd & _ & _ & Hsize & _)]].
  - vm_compute in H. discriminate.
  - vm_compute in H. by destruct H.
  - by exists m'.
Defined.

(** *** The active record *)
Lemma well_formed_count_exact m :
  well_formed m →
  active_count m = if activeConfig m is Some _ then 1 else 0.
Proof.
  intros Hwf. pose proof (well_formed_active_count m Hwf) as Hle.
  destruct Hwf as (Hs & Hact & Hsto). unfold active_count in *.
  destruct (activeConfig m) as [p|] eqn:Hp.
  - destruct (Hsto (version (view m p))) as (r & Hr & Hra).
    { unfold activeVersion. by rewrite Hp. }
    assert ((version (view m p), r) ∈
              filter (λ kv : number * nat, isActive (deref m kv.2) = true)
                (map_to_list (configs m))) as Hin.
    { apply list_elem_of_filter. split; [done|].
      by apply elem_of_map_to_list. }
    destruct (filter _ _) as [|? l]; [by apply elem_of_nil in Hin|].
    simpl in *. lia.
  - destruct (filter _ _) as [|[k r] l] eqn:Hl; [done|exfalso].
    assert ((k, r) ∈ filter
              (λ kv : number * nat, isActive (deref m kv.2) = true)
              (map_to_list (configs m))) as Hin by (rewrite Hl; by left).
    apply list_elem_of_filter in Hin as [Hra Hr%elem_of_map_to_list].
    pose proof (Hact k r Hr Hra) as Hav. simpl in Hav.
    unfold activeVersion in Hav. by rewrite Hp in Hav.
Qed.

(** X18: On a manager reached by any calls the number of stored records with
    status ACTIVE is exactly 1 when the active pointer is set and 0 when it
    is not. *)
Theorem active_count_exact (cs : list call) :
  let m := run cs empty in
  active_count m = if activeConfig m is Some _ then 1 else 0.
Proof. apply well_formed_count_exact, manager_reached_well_formed. Qed.

Lemma perform_keeps_active c m :
  well_formed m → is_Some (activeConfig m) →
  is_Some (activeConfig (after (perform c) m)).
Proof.
  intros Hwf Hac. pose proof Hwf as (Hst & Hact & Hsto).
  destruct (outcome (perform c) m) as [e|[]] eqn:Hout.
  { by rewrite (perform_throws_unchanged c m e). }
  unfold outcome in Hout. unfold after.
  destruct c as [config|config|v|v]; simpl in *.
  - destruct (assertVersion_cases (version config) m)
      as [H|(v & Hv & Hvv & H)].
    { unfold add in Hout. se_unfold. by rewrite H in Hout. }
    destruct (assertStatus_cases (status config) m)
      as [H'|(s & Hs & Hvs & H')].
    { unfold add in Hout. se_unfold. by rewrite H, H' in Hout. }
    rewrite (add_eq config v s) in Hout |- * by done.
    rewrite (bool_decide_eq_true_2 _ Hac), andb_true_r in Hout |- *.
    destruct (num_eq s (status_code ACTIVE)); [done|].
    by case_bool_decide.
  - destruct (assertVersion_cases (version config) m)
      as [H|(v & Hv & Hvv & H)].
    { unfold update in Hout. se_unfold. by rewrite H in Hout. }
    destruct (assertStatus_cases (status config) m)
      as [H'|(s & Hs & Hvs & H')].
    { unfold update in Hout. se_unfold. by rewrite H, H' in Hout. }
    rewrite (update_eq config v s) by done.
    destruct (configs m !! v); [|done]. by destruct (num_eq _ _).
  - destruct (assertVersion_cases v m) as [H|(n & -> & Hn & H)].
    { unfold remove in Hout. se_unfold. by rewrite H in Hout. }
    rewrite remove_eq by done.
    destruct (configs m !! n); [|done]. by destruct (isActive _).
  - destruct (assertVersion_cases v m) as [H|(n & -> & Hn & H)].
    { unfold activate in Hout. se_unfold. by rewrite H in Hout. }
    rewrite activate_eq in Hout |- * by done.
    destruct (configs m !! n) as [config|] eqn:Hc.
    2:{ unfold activated in Hout. by rewrite Hc in Hout. }
    destruct (decide (match activeVersion m with
                      | Some a => configs m !! a
                      | None => None
                      end = Some config)) as [Heq|Hne].
    + unfold activated. rewrite Hc.
      by rewrite bool_decide_eq_true_2.
    + by rewrite (activated_swap n m config Hst Hc Hne).
Qed.

(** X19: The active pointer is never cleared: once it is set on a manager
    reached by any calls, it stays set through every further call, so that
    from then on exactly one stored record is ACTIVE. *)
Theorem active_pointer_never_cleared (cs cs' : list call) :
  is_Some (activeConfig (run cs empty)) →
  is_Some (activeConfig (run (cs ++ cs') empty)) ∧
  active_count (run (cs ++ cs') empty) = 1.
Proof.
  intros Hac.
  assert (is_Some (activeConfig (run (cs ++ cs') empty))) as H.
  { unfold run. rewrite foldl_app. fold (run cs empty).
    pose proof (manager_reached_well_formed cs) as Hwf.
    revert Hwf Hac. generalize (run cs empty). clear cs.
    induction cs' as [|c cs' IH]; intros m Hwf Hac; [done|]. simpl.
    apply IH; [by apply perform_well_formed|by apply perform_keeps_active]. }
  split; [done|].
  rewrite (well_formed_count_exact _ (manager_reached_well_formed _)).
  by destruct H as [p ->].
Qed.

Lemma active_pointer_never_cleared_witness :
  let cs := [Add (mkConfig (VNumber (num 1)) (VNumber (status_code ACTIVE)) [])] in
  let cs' := [Add (mkConfig (VNumber (num 2)) (VNumber (status_code INACTIVE)) []);
              Activate (VNumber (num 2)); Remove (VNumber (num 1));
              Remove (VNumber (num 2))] in
  is_Some (activeConfig (run (cs ++ cs') empty)) ∧
  active_count (run (cs ++ cs') empty) = 1.
Proof.
  intros cs cs'. apply (active_pointer_never_cleared cs cs').
  vm_compute. eauto.
Defined.

(** X20: [get()] without argument, on a manager reached by any calls: when the
    active pointer is set it answers the frozen snapshot now stored under
    the active version, which shows that version and the status ACTIVE;
    when it is not set it answers [undefined], and no stored record is
    ACTIVE. *)
Theorem get_returns_active (cs : list call) :
  let m := run cs empty in
  match activeVersion m with
  | Some a =>
      ∃ p, get VUndefined m = (inr (Some p), m) ∧
           fakeConfigs m !! a = Some p ∧
           stored m a = Some (view m p) ∧
           version (view m p) = a ∧ isActive (view m p) = true
  | None => get VUndefined m = (inr None, m) ∧ active_count m = 0
  end.
Proof.
  intros m. pose proof (manager_reached_well_formed cs) as Hwf. fold m in Hwf.
  pose proof (well_formed_count_exact m Hwf) as Hcount.
  destruct Hwf as (Hs & Hact & Hsto).
  destruct (activeVersion m) as [a|] eqn:Ha.
  - destruct (Hsto a Ha) as (r & Hr & Hra).
    exists (Proxy r). unfold get. se_unfold. simpl.
    unfold activeVersion in Ha.
    destruct (activeConfig m) as [p|]; [|done]. simpl in Ha.
    injection Ha as Ha. rewrite Ha.
    rewrite structured_fake, Hr by done. split_and!; try done.
    + unfold stored. by rewrite Hr.
    + by destruct (st_refs m Hs a r Hr).
  - unfold activeVersion in Ha. unfold get. se_unfold. simpl.
    by destruct (activeConfig m).
Qed.

(** *** The two maps *)

(** X22: On a manager reached by any calls the two maps have the same keys,
    [getAll()] answers as many snapshots as [size] counts, and each of them
    is the snapshot stored under the version it shows and shows the record
    the canonical map holds under that version. *)
Theorem getAll_lists_snapshots (cs : list call) :
  let m := run cs empty in
  dom (fakeConfigs m) = dom (configs m) ∧
  length (getAll m) = size m ∧
  ∀ p, p ∈ getAll m ↔
       fakeConfigs m !! version (view m p) = Some p ∧
       stored m (version (view m p)) = Some (view m p).
Proof.
  intros m. pose proof (manager_reached_well_formed cs) as (Hs & _ & _).
  fold m in Hs.
  split_and!.
  - by rewrite (st_fake m Hs), dom_fmap_L.
  - unfold getAll, size. rewrite length_fmap, length_map_to_list.
    by rewrite (st_fake m Hs), map_size_fmap.
  - intros p. unfold getAll. rewrite list_elem_of_fmap. split.
    + intros ([v p'] & -> & Hvp%elem_of_map_to_list). simpl.
      rewrite structured_fake in Hvp by done.
      destruct (configs m !! v) as [r|] eqn:Hr; [|done].
      injection Hvp as <-. destruct (st_refs m Hs v r Hr) as [_ Hv].
      unfold view, stored. simpl. rewrite Hv, structured_fake, Hr by done.
      done.
    + intros [Hp _]. exists (version (view m p), p). split; [done|].
      by apply elem_of_map_to_list.
Qed.

(** *** The stored records *)
Lemma allocated_records_valid v c m :
  structured m → records_valid m →
  valid_version v = true → valid_status (status c) = true →
  records_valid (allocated v c m).
Proof.
  intros Hs Hrv Hv Hc v' r. simpl.
  destruct (decide (v = v')) as [<-|Hne].
  - rewrite lookup_insert_eq. intros [= <-].
    by rewrite allocated_deref_new.
  - rewrite lookup_insert_ne by done. intros Hr.
    rewrite allocated_deref_old by (by eapply Hs). by apply Hrv.
Qed.

Lemma activated_records_valid n m :
  records_valid m → records_valid (activated n m).2.
Proof.
  intros Hrv. unfold activated.
  destruct (configs m !! n) as [config|]; [|done].
  case_bool_decide; [done|]. simpl. intros v r Hr.
  destruct (Hrv v r Hr) as [Hv Hst]. split; [done|].
  unfold deref in *. simpl.
  rewrite list_lookup_total_alter. case_decide; [done|].
  destruct (match activeVersion m with
            | Some a => configs m !! a
            | None => None
            end); [|done].
  rewrite list_lookup_total_alter. by case_decide.
Qed.

Lemma perform_records_valid c m :
  well_formed m → records_valid m → records_valid (after (perform c) m).
Proof.
  intros Hwf Hrv. pose proof Hwf as (Hst & _ & _).
  destruct (outcome (perform c) m) as [e|[]] eqn:Hout.
  { by rewrite (perform_throws_unchanged c m e). }
  unfold outcome in Hout. unfold after.
  destruct c as [config|config|v|v]; simpl in *.
  - destruct (assertVersion_cases (version config) m)
      as [H|(v & Hv & Hvv & H)].
    { unfold add in Hout. se_unfold. by rewrite H in Hout. }
    destruct (assertStatus_cases (status config) m)
      as [H'|(s & Hs & Hvs & H')].
    { unfold add in Hout. se_unfold. by rewrite H, H' in Hout. }
    rewrite (add_eq config v s) by done.
    destruct (_ && _); [done|]. case_bool_decide; [done|]. cbn zeta.
    destruct (num_eq s _).
    + by apply activated_records_valid, allocated_records_valid.
    + by apply allocated_records_valid.
  - destruct (assertVersion_cases (version config) m)
      as [H|(v & Hv & Hvv & H)].
    { unfold update in Hout. se_unfold. by rewrite H in Hout. }
    destruct (assertStatus_cases (status config) m)
      as [H'|(s & Hs & Hvs & H')].
    { unfold update in Hout. se_unfold. by rewrite H, H' in Hout. }
    rewrite (update_eq config v s) by done.
    destruct (configs m !! v); [|done]. destruct (num_eq _ _); [|done].
    by apply allocated_records_valid.
  - destruct (assertVersion_cases v m) as [H|(n & -> & Hn & H)].
    { unfold remove in Hout. se_unfold. by rewrite H in Hout. }
    rewrite remove_eq by done.
    destruct (configs m !! n); [|done]. destruct (isActive _); [done|].
    intros v' r'. simpl. intros [_ Hr']%lookup_delete_Some. by apply Hrv.
  - destruct (assertVersion_cases v m) as [H|(n & -> & Hn & H)].
    { unfold activate in Hout. se_unfold. by rewrite H in Hout. }
    rewrite activate_eq by done. by apply activated_records_valid.
Qed.

Lemma reached_records_valid cs : records_valid (run cs empty).
Proof.
  assert (∀ m, well_formed m → records_valid m → records_valid (run cs m))
    as H.
  { induction cs as [|c cs IH]; intros m Hwf Hrv; [done|].
    apply IH; [by apply perform_well_formed|by apply perform_records_valid]. }
  apply H; [apply empty_manager_well_formed|]. by intros v r ?.
Qed.

(** X23: Every record a manager reached by any calls stores carries the
    version it is stored under, a version [assertVersion] accepts and the
    status INACTIVE or ACTIVE, and its frozen snapshot shows the same
    record. *)
Theorem stored_records_are_valid (cs : list call) v c :
  stored (run cs empty) v = Some c →
  version c = v ∧ accepts_version (VNumber v) = true ∧
  (status c = status_code INACTIVE ∨ status c = status_code ACTIVE) ∧
  snapshot (run cs empty) v = Some c.
Proof.
  pose proof (manager_reached_well_formed cs) as (Hs & _ & _).
  pose proof (reached_records_valid cs) as Hrv.
  intros Hc. rewrite structured_snapshot by done. unfold stored in Hc.
  destruct (configs (run cs empty) !! v) as [r|] eqn:Hr; [|done].
  injection Hc as <-. destruct (Hrv v r Hr) as [Hv Hst].
  destruct (st_refs _ Hs v r Hr) as [_ Hver].
  split_and!; [done|done|by apply valid_status_cases|].
  unfold stored. by rewrite Hr.
Qed.

Lemma stored_records_are_valid_witness :
  let cs := [Add (mkConfig (VNumber (num 1)) (VNumber (status_code ACTIVE)) []);
             Add (mkConfig (VNumber (num 2)) (VNumber (status_code INACTIVE)) []);
             Activate (VNumber (num 2))] in
  let c := mkConfig (num 1) (status_code INACTIVE) [] in
  version c = num 1 ∧ accepts_version (VNumber (num 1)) = true ∧
  (status c = status_code INACTIVE ∨ status c = status_code ACTIVE) ∧
  snapshot (run cs empty) (num 1) = Some c.
Proof.
  intros cs c. apply (stored_records_are_valid cs (num 1) c).
  vm_compute. reflexivity.
Defined.

(** *** [get] and [update] *)
Lemma reached_reachable cs : reachable (run cs empty).
Proof. by exists None, cs, empty. Qed.

(** X21: [get(n)] for an accepted version other than 0, on a manager reached by
    any calls: nothing changes, and the answer is the frozen snapshot
    stored under [n], which shows the record stored under [n], or
    [undefined] when no record has version [n]. *)
Theorem get_by_version (cs : list call) n :
  valid_version n = true → n ≠ num 0 →
  let m := run cs empty in
  get (VNumber n) m = (inr (fakeConfigs m !! n), m) ∧
  view m <$> fakeConfigs m !! n = stored m n.
Proof.
  intros Hn H0 m. split; [by apply get_version|].
  apply structured_snapshot, manager_reached_well_formed.
Qed.

Lemma get_by_version_witness :
  get (VNumber (num 2)) example_manager =
    (inr (fakeConfigs example_manager !! num 2), example_manager).
Proof.
  apply (get_by_version
           [Add (mkConfig (VNumber (num 1)) (VNumber (status_code ACTIVE)) []);
            Add (mkConfig (VNumber (num 2)) (VNumber (status_code INACTIVE)) [])]
           (num 2)).
  - reflexivity.
  - vm_compute. discriminate.
Defined.

(** X24: [update] with an accepted version and status, on a manager reached by
    any calls: nothing happens when no record has the version; a status
    other than the stored one is refused with IMMUTABLE_FIELD_UPDATE and
    nothing changes; otherwise the record and its frozen snapshot become
    the clone of the argument, the other records stay, and [get] of the
    version, when it is not 0, answers a snapshot that shows the clone. *)
Theorem update_replaces_record (cs : list call) v s
    (fields : list (string * value)) :
  valid_version v = true → valid_status s = true →
  let m := run cs empty in
  let config := mkConfig (VNumber v) (VNumber s) fields in
  (stored m v = None → update config m = (inr tt, m)) ∧
  (∀ c, stored m v = Some c → s ≠ status c →
     update config m = (inl (IMMUTABLE_FIELD_UPDATE "status"), m)) ∧
  (∀ c, stored m v = Some c → s = status c →
     ∃ m', update config m = (inr tt, m') ∧
       stored m' v = Some (mkConfig v s fields) ∧
       snapshot m' v = Some (mkConfig v s fields) ∧
       size m' = size m ∧
       (∀ v', v' ≠ v → stored m' v' = stored m v') ∧
       (v ≠ num 0 →
          ∃ p, get (VNumber v) m' = (inr (Some p), m') ∧
               view m' p = mkConfig v s fields)).
Proof.
  intros Hv Hs m config.
  destruct (update_spec config v s m (reached_reachable cs)
              eq_refl eq_refl Hv Hs) as (Hnone & Hdiff & Hsame).
  split_and!; [done|done|].
  intros c Hc ->. destruct (Hsame c Hc eq_refl)
    as (m' & Hup & Hst & Hsn & Hother & Hget).
  exists m'. split_and!; try done.
  pose proof (update_eq config v (status c) m eq_refl eq_refl Hv Hs) as Heq.
  unfold stored in Hc.
  destruct (configs m !! v) as [r|] eqn:Hr; [|done]. injection Hc as <-.
  rewrite num_eq_refl in Heq.
  2:{ apply valid_status_cases in Hs as [-> | ->]; done. }
  rewrite Heq in Hup. injection Hup as <-.
  unfold size. simpl. rewrite map_size_insert_Some; [done|by eexists].
Qed.

Lemma update_replaces_record_witness :
  update (mkConfig (VNumber (num 2)) (VNumber (status_code ACTIVE)) [])
         example_manager =
    (inl (IMMUTABLE_FIELD_UPDATE "status"), example_manager).
Proof.
  apply (proj1 (proj2 (update_replaces_record
           [Add (mkConfig (VNumber (num 1)) (VNumber (status_code ACTIVE)) []);
            Add (mkConfig (VNumber (num 2)) (VNumber (status_code INACTIVE)) [])]
           (num 2) (status_code ACTIVE) [] eq_refl eq_refl))
         (mkConfig (num 2) (status_code INACTIVE) [])).
  - vm_compute. reflexivity.
  - vm_compute. discriminate.
Defined.

(** X25: [update] never writes the [activeConfig] field.  After the active
    version is updated on a manager reached by any calls, the field still
    refers to the object made before, which shows the record as it was,
    while [get()] answers the new snapshot, which shows the clone of the
    argument. *)
Theorem update_leaves_activeConfig_field (cs : list call) v s
    (fields : list (string * value)) :
  valid_version v = true → valid_status s = true →
  let m := run cs empty in
  let config := mkConfig (VNumber v) (VNumber s) fields in
  let m' := after (update config) m in
  activeVersion m = Some v → outcome (update config) m = inr tt →
  activeConfig m' = activeConfig m ∧
  (∀ p, activeConfig m = Some p → view m' p = view m p) ∧
  ∃ p', get VUndefined m' = (inr (Some p'), m') ∧
        view m' p' = mkConfig v s fields.
Proof.
  intros Hv Hs m config m' Hav Hout.
  pose proof (manager_reached_well_formed cs) as (Hst & Hact & Hsto).
  fold m in Hst, Hsto.
  destruct (Hsto v Hav) as (r & Hr & _).
  unfold m', outcome, after in *.
  rewrite (update_eq config v s) in Hout |- * by done.
  rewrite Hr in Hout |- *.
  destruct (num_eq s (status (deref m r))); [|done]. simpl.
  unfold activeVersion in Hav.
  destruct (activeConfig m) as [p|] eqn:Hp; [|done]. simpl in Hav.
  injection Hav as Hav.
  set (m1 := allocated v (mkConfig v s fields) m).
  assert (view m1 p = view m p) as Hview.
  { unfold view. apply allocated_deref_old. by apply Hst. }
  assert (activeConfig m1 = Some p) as Hp1 by done.
  assert (fakeConfigs m1 !! v = Some (Proxy (length (objects m)))) as Hf
    by apply lookup_insert_eq.
  split_and!; [done|by intros ? [= <-]|].
  exists (Proxy (length (objects m))). unfold get. se_unfold.
  cbv beta iota delta [ToBoolean]. rewrite Hp1, Hview, Hav, Hf.
  split; [done|]. apply allocated_deref_new.
Qed.

Lemma update_leaves_activeConfig_field_witness :
  let cs := [Add (mkConfig (VNumber (num 1)) (VNumber (status_code ACTIVE))
                    [("name", VString "old")])] in
  let config := mkConfig (VNumber (num 1)) (VNumber (status_code ACTIVE))
                  [("name", VString "new")] in
  let m' := after (update config) (run cs empty) in
  activeConfig m' = activeConfig (run cs empty) ∧
  view m' (Proxy 0) = view (run cs empty) (Proxy 0).
Proof.
  intros cs config m'.
  destruct (update_leaves_activeConfig_field cs (num 1) (status_code ACTIVE)
              [("name", VString "new")] eq_refl eq_refl)
    as (Hfield & Hview & _).
  - vm_compute. reflexivity.
  - vm_compute. reflexivity.
  - split; [exact Hfield|]. apply Hview. vm_compute. reflexivity.
Defined.

(** *** [activate] twice *)

(** X26: Activating is idempotent: on a manager reached by any calls, a second
    [activate] with the same argument ends as the first did, with the same
    throw or the same return, and changes nothing more. *)
Theorem activate_idempotent (cs : list call) (v : value) :
  let m := run cs empty in
  let m' := after (activate v) m in
  activate v m' = (outcome (activate v) m, m').
Proof.
  intros m m'. pose proof (manager_reached_well_formed cs) as (Hst & _ & _).
  fold m in Hst.
  destruct (outcome (activate v) m) as [e|[]] eqn:Hout.
  { pose proof (perform_throws_unchanged (Activate v) m e Hout) as Hsame.
    simpl in Hsame. unfold m'. rewrite Hsame.
    unfold outcome, after in *. destruct (activate v m) as [o m2].
    simpl in *. by subst. }
  unfold m', outcome, after in *.
  destruct (assertVersion_cases v m) as [H|(n & -> & Hn & H)].
  { unfold activate in Hout. se_unfold. by rewrite H in Hout. }
  rewrite activate_eq in Hout |- * by done. rewrite activate_eq by done.
  destruct (configs m !! n) as [config|] eqn:Hc.
  2:{ unfold activated in Hout. by rewrite Hc in Hout. }
  destruct (decide (match activeVersion m with
                    | Some a => configs m !! a
                    | None => None
                    end = Some config)) as [Heq|Hne].
  - assert (activated n m = (inr tt, m)) as ->.
    { unfold activated. rewrite Hc. by rewrite bool_decide_eq_true_2. }
    simpl. unfold activated. rewrite Hc. by rewrite bool_decide_eq_true_2.
  - rewrite (activated_swap n m config Hst Hc Hne). cbn [fst snd].
    set (objs := alter _ config _).
    assert (activeVersion
              (Manager objs (configs m) (fakeConfigs m) (Some (Proxy config)))
            = Some n) as Hav.
    { unfold activeVersion, view, deref.
      cbn [activeConfig objects target fmap option_fmap option_map].
      f_equal. subst objs. rewrite version_alter_status.
      destruct (st_refs m Hst n config Hc) as [_ Hver]. unfold deref in Hver.
      destruct (match activeVersion m with
                | Some a => configs m !! a
                | None => None
                end); [rewrite version_alter_status|]; by rewrite Hver. }
    unfold activated. rewrite Hav. cbn [configs]. rewrite Hc.
    by rewrite bool_decide_eq_true_2.
Qed.

(** *** The constructor *)
Lemma add_returns_size config m :
  outcome (add config) m = inr tt →
  size (after (add config) m) = S (size m).
Proof.
  unfold outcome, after. intros Hout.
  destruct (assertVersion_cases (version config) m)
    as [H|(v & Hv & Hvv & H)].
  { unfold add in Hout. se_unfold. by rewrite H in Hout. }
  destruct (assertStatus_cases (status config) m)
    as [H'|(s & Hs & Hvs & H')].
  { unfold add in Hout. se_unfold. by rewrite H, H' in Hout. }
  rewrite (add_eq config v s) in Hout |- * by done.
  destruct (_ && _); [done|]. case_bool_decide as Hcv; [done|].
  apply eq_None_not_Some in Hcv. cbn zeta in *. unfold size.
  destruct (num_eq s _).
  - rewrite (proj1 (activated_configs _ _)). simpl.
    by rewrite map_size_insert_None.
  - simpl. by rewrite map_size_insert_None.
Qed.

(** One step of the constructor's loop. *)
Local Abbreviation step := (λ acc config,
  match acc with
  | inl e => inl e
  | inr m => match add config m with
             | (inl e, _) => inl e
             | (inr _, m') => inr m'
             end
  end).

Lemma manager_loop_thrown (cs : list (ConfigOf value)) e :
  foldl step (inl e) cs = inl e.
Proof. by induction cs. Qed.

Lemma manager_loop (cs : list (ConfigOf value)) m0 :
  match foldl step (inr m0) cs with
  | inr m => m = run (Add <$> cs) m0 ∧ size m = size m0 + length cs
  | inl e =>
      ∃ added config rest, cs = added ++ config :: rest ∧
        size (run (Add <$> added) m0) = size m0 + length added ∧
        add config (run (Add <$> added) m0) =
          (inl e, run (Add <$> added) m0)
  end.
Proof.
  revert m0. induction cs as [|c cs IH]; intros m0.
  { simpl. split; [done|lia]. }
  cbn [foldl]. destruct (add c m0) as [[e|[]] m1] eqn:Hadd; cbv beta iota.
  - rewrite manager_loop_thrown.
    assert (m1 = m0) as ->.
    { pose proof (perform_throws_unchanged (Add c) m0 e) as Hsame.
      unfold outcome, after in Hsame. simpl in Hsame.
      rewrite Hadd in Hsame. by apply Hsame. }
    exists [], c, cs. split_and!; [done|simpl; lia|exact Hadd].
  - assert (size m1 = S (size m0)) as Hsize.
    { pose proof (add_returns_size c m0) as H.
      unfold outcome, after in H. rewrite Hadd in H. by apply H. }
    assert (∀ l, run (Add <$> c :: l) m0 = run (Add <$> l) m1) as Hrun.
    { intros l. unfold run. rewrite fmap_cons. cbn [foldl perform].
      unfold after. by rewrite Hadd. }
    specialize (IH m1). destruct (foldl _ _ cs) as [e|m].
    + destruct IH as (added & config & rest & -> & Hsz & Hthrow).
      exists (c :: added), config, rest. rewrite Hrun.
      split_and!; [done|cbn [length]; lia|done].
    + destruct IH as [-> Hsz]. rewrite Hrun. split; [done|].
      cbn [length]. lia.
Qed.

(** X17: [new InMemoryConfigManager()] is the empty manager, and
    [new InMemoryConfigManager(configs)] adds the configs in turn: when it
    returns, the manager is the one those [add] calls leave and stores one
    record per config; when it throws, it throws what the first refused
    [add] threw, the configs before it having all been stored. *)
Theorem constructor_adds_in_turn (cs : list (ConfigOf value)) :
  constructor None = inr empty ∧
  match constructor (Some cs) with
  | inr m => m = run (Add <$> cs) empty ∧ size m = length cs
  | inl e =>
      ∃ added config rest, cs = added ++ config :: rest ∧
        size (run (Add <$> added) empty) = length added ∧
        add config (run (Add <$> added) empty) =
          (inl e, run (Add <$> added) empty)
  end.
Proof.
  split; [done|]. unfold constructor.
  pose proof (manager_loop cs empty) as H.
  destruct (foldl _ _ cs) as [e|m]; [|done].
  destruct H as (added & config & rest & ? & ? & ?).
  by exists added, config, rest.
Qed.

End ConfigManagerLaws.
